(** * douyin_crawler: comment harvester, request signing, captcha solver
      and batch orchestrator

    A shallow embedding of [client.py], [utils.py] and [crawler.py].
    Python [int] is [Z], Python [float] is the primitive binary64 [float],
    [str] is [string], a [dict] whose order is observable is an association
    list updated the way a Python dict is, a [dict] that is only looked up is
    a [gmap].  Awaited calls to the outside world (the HTTP fetch, the
    per-page callback, [asyncio.sleep]) and the generator's [yield] appear as
    events of a trace, in the order the code performs them. *)

From Stdlib Require Import ZArith.
From Stdlib Require Import PrimFloat FloatOps SpecFloat Uint63.
From stdpp Require Import gmap strings pretty list sorting relations.

Local Open Scope Z_scope.
Set Warnings "-clear-no-such-hyp,-inexact-float".

(* ===================================================================== *)
(** * Python helpers *)
(* ===================================================================== *)

(** Truth value of a Python [int]. *)
Definition py_truthy (z : Z) : bool := negb (z =? 0).

(** [l[:n]] for an arbitrary integer [n]: a negative bound counts from the
    end of the list. *)
Definition py_slice_to {A} (l : list A) (n : Z) : list A :=
  if 0 <=? n then firstn (Z.to_nat n) l
  else firstn (length l - Z.to_nat (- n))%nat l.

(** [l[a:b]] for non-negative bounds. *)
Definition py_slice {A} (l : list A) (a b : Z) : list A :=
  firstn (Z.to_nat b - Z.to_nat a)%nat (skipn (Z.to_nat a) l).

(** [k in s] on strings: [k] occurs in [s] as a contiguous substring. *)
Fixpoint str_in (k s : string) : bool :=
  String.prefix k s ||
  match s with
  | EmptyString => false
  | String _ s' => str_in k s'
  end.

(** What [k in s] decides: [s] is [pre + k + post] for some [pre], [post]. *)
Definition contains (k s : string) : Prop :=
  exists pre post, s = pre +:+ k +:+ post.

(** [sum(l)] and [len(l)] as integers. *)
Definition sumZ (l : list Z) : Z := fold_right Z.add 0 l.
Definition len {A} (l : list A) : Z := Z.of_nat (length l).

(** ** Exceptions *)

Inductive py_exn :=
| KeyError (key : string)
| AttributeError (what : string)
| ImportError (what : string)
| ValueError
| OverflowError
| CvError (what : string)
| JsError (what : string).

(** A computation that returns or raises. *)
Definition result (A : Type) : Type := py_exn + A.

Definition ok {A} (a : A) : result A := inr a.
Definition raise {A} (e : py_exn) : result A := inl e.

Global Instance result_bind : MBind result := fun A B f m =>
  match m with
  | inl e => inl e
  | inr a => f a
  end.

Global Instance result_ret : MRet result := fun A a => inr a.

Definition is_ok {A} (m : result A) : Prop := exists a, m = inr a.
Definition fails {A} (m : result A) : Prop := exists e, m = inl e.

(* ===================================================================== *)
(** * client.py: [Client.get_aweme_all_comments] *)
(* ===================================================================== *)

Module Harvest.

(** A comment is a JSON object; only its ["text"] entry is inspected. *)
Abbreviation comment := (gmap string string).

(** [comment.get("text", "")] *)
Definition comment_text (c : comment) : string := default ""%string (c !! "text"%string).

(** The decoded response of one page fetch.  Every field is read with
    [dict.get] and a default, so every field may be missing. *)
Record comments_res := {
  res_has_more : option Z;
  res_cursor : option Z;
  res_comments : option (list comment)
}.

(** What one call of [get_aweme_comments] does: return a page or raise. *)
Inductive reply :=
| Reply (res : comments_res)
| Raises (msg : string).

(** What the generator does to the outside world, in program order. *)
Inductive event :=
| EFetch (aweme_id : string) (cursor : Z)
| ECallback (aweme_id : string) (comments : list comment)
| ESleep (interval : float)
| EYield (batch : list comment).

(** The three loop variables. *)
Record loop_state := {
  comments_has_more : Z;
  comments_cursor : Z;
  collected_comments_count : Z
}.

(** How one pass through the loop body ends. *)
Inductive control :=
| Continue
| Break
| Raise (msg : string).

(** The log of one pass through the loop body. *)
Record iteration := {
  it_before : loop_state;
  it_reply : reply;
  it_events : list event;
  it_after : loop_state;
  it_control : control
}.

(** How the generator ends.  [Starved] is the model's own: the script of
    replies ran out while the loop was about to fetch again. *)
Inductive outcome :=
| Finished
| Failed (msg : string)
| Starved.

Section Generator.
Variable aweme_id : string.
Variable crawl_interval : float.
Variable is_fetch_sub_comments : bool.
(** [callback] is an effectful callable; only whether one was passed
    matters here, its invocation is an event. *)
Variable callback : bool.
Variable max_comments : option Z.
Variable keywords : option (list string).

(** The [while] condition. *)
Definition while_cond (st : loop_state) : bool :=
  py_truthy (comments_has_more st) &&
  match max_comments with
  | None => true
  | Some m => (collected_comments_count st <? m) || (m =? 0)
  end.

(** [any(keyword in comment.get("text", "") for keyword in keywords)] *)
Definition keyword_hit (kws : list string) (c : comment) : bool :=
  existsb (fun k => str_in k (comment_text c)) kws.

(** The keyword filter; [None] and the empty list are both falsy. *)
Definition filter_comments (comments : list comment) : list comment :=
  match keywords with
  | Some (k :: ks) => List.filter (keyword_hit (k :: ks)) comments
  | _ => comments
  end.

(** The quota cut: what is added to [result] and counted.  The cut is
    made when [max_comments is not None and max_comments > 0]. *)
Definition comments_to_add (count : Z) (filtered : list comment) : list comment :=
  match max_comments with
  | Some m => if 0 <? m then py_slice_to filtered (m - count) else filtered
  | None => filtered
  end.

(** [max_comments is not None and 0 < max_comments <= collected] *)
Definition quota_reached (count : Z) : bool :=
  match max_comments with
  | Some m => (0 <? m) && (m <=? count)
  | None => false
  end.

(** One pass through the loop body, given what the fetch did. *)
Definition loop_body (st : loop_state) (rp : reply)
  : list event * loop_state * control :=
  let fetch := EFetch aweme_id (comments_cursor st) in
  match rp with
  | Raises msg => ([fetch], st, Raise msg)
  | Reply res =>
      let has_more := default 0 (res_has_more res) in
      let cursor := default 0 (res_cursor res) in
      let comments := default [] (res_comments res) in
      match comments with
      | [] =>
          ([fetch],
           {| comments_has_more := has_more;
              comments_cursor := cursor;
              collected_comments_count := collected_comments_count st |},
           Continue)
      | _ :: _ =>
          let result := comments_to_add (collected_comments_count st)
                                        (filter_comments comments) in
          let count := collected_comments_count st + len result in
          let st' := {| comments_has_more := has_more;
                        comments_cursor := cursor;
                        collected_comments_count := count |} in
          let cb := if callback then [ECallback aweme_id comments] else [] in
          (* the sub-comment branch is a [pass] *)
          let sub : list event := if is_fetch_sub_comments then [] else [] in
          if quota_reached count
          then (fetch :: cb, st', Break)
          else (fetch :: cb ++ [ESleep crawl_interval] ++ sub ++ [EYield result],
                st', Continue)
      end
  end.

(** The loop, driven by the replies the fetches will get. *)
Fixpoint run_loop (script : list reply) (st : loop_state)
  : list iteration * outcome :=
  if while_cond st then
    match script with
    | [] => ([], Starved)
    | rp :: script' =>
        let '(evs, st', ctl) := loop_body st rp in
        let it := {| it_before := st; it_reply := rp; it_events := evs;
                     it_after := st'; it_control := ctl |} in
        match ctl with
        | Continue =>
            let '(its, out) := run_loop script' st' in (it :: its, out)
        | Break => ([it], Finished)
        | Raise msg => ([it], Failed msg)
        end
    end
  else ([], Finished).

Definition initial_state : loop_state :=
  {| comments_has_more := 1; comments_cursor := 0; collected_comments_count := 0 |}.

Definition get_aweme_all_comments (script : list reply) : list iteration * outcome :=
  run_loop script initial_state.

End Generator.

(** ** Reading a run *)

Definition events (its : list iteration) : list event :=
  concat (map it_events its).

Definition yielded (evs : list event) : list (list comment) :=
  omap (fun e => match e with EYield b => Some b | _ => None end) evs.

Definition total_yielded (evs : list event) : Z :=
  sumZ (map len (yielded evs)).

(** The value of [collected_comments_count] after each pass. *)
Definition counts (its : list iteration) : list Z :=
  map (fun it => collected_comments_count (it_after it)) its.

Definition final_count (its : list iteration) : Z :=
  List.last (counts its) 0.

(** The comments of the page an iteration fetched. *)
Definition page_comments (rp : reply) : list comment :=
  match rp with
  | Reply res => default [] (res_comments res)
  | Raises _ => []
  end.

Definition is_fetch (e : event) : bool :=
  match e with EFetch _ _ => true | _ => false end.

(** The loop variables after a page without comments. *)
Definition skip_page (st : loop_state) (res : comments_res) : loop_state :=
  {| comments_has_more := default 0 (res_has_more res);
     comments_cursor := default 0 (res_cursor res);
     collected_comments_count := collected_comments_count st |}.

(** A page without comments that announces more. *)
Definition empty_with_more (res : comments_res) : Prop :=
  default [] (res_comments res) = [] /\
  py_truthy (default 0 (res_has_more res)) = true.

(** The cursors a run of fetches is made with, one page after the other. *)
Definition fetch_cursors (st : loop_state) (pages : list comments_res) : list Z :=
  take (length pages)
       (comments_cursor st :: map (fun res => default 0 (res_cursor res)) pages).

(** ** Sample pages *)

Definition mk_comment (cid text : string) : comment :=
  {[ "cid"%string := cid; "text"%string := text ]}.

Definition numbered (prefix : string) (n : nat) : list comment :=
  map (fun i => mk_comment (prefix +:+ pretty i) "nice video"%string) (seq 0 n).

Definition page (has_more cursor : Z) (cs : list comment) : reply :=
  Reply {| res_has_more := Some has_more; res_cursor := Some cursor;
           res_comments := Some cs |}.

Definition empty_page (has_more cursor : Z) : reply := page has_more cursor [].

(** Item "A": 15 comments and more to come, then 10 comments and no more. *)
Definition item_A : list reply :=
  [ page 1 15 (numbered "a" 15); page 0 25 (numbered "b" 10) ].

End Harvest.

(* ===================================================================== *)
(** * client.py: [Client.__process_req_params] *)
(* ===================================================================== *)

Module Signing.

(** A Python [dict] of strings in insertion order.  Values are the
    strings that [f"{k}={v}"] prints. *)
Abbreviation dict := (list (string * string)).

Fixpoint dict_get (k : string) (d : dict) : option string :=
  match d with
  | [] => None
  | (k', v') :: d' => if String.eqb k k' then Some v' else dict_get k d'
  end.

(** [d[k] = v]: an existing key keeps its place, a new key goes last. *)
Fixpoint dict_set (k v : string) (d : dict) : dict :=
  match d with
  | [] => [(k, v)]
  | (k', v') :: d' =>
      if String.eqb k k' then (k, v) :: d' else (k', v') :: dict_set k v d'
  end.

(** [d.update(src)] *)
Definition dict_update (d src : dict) : dict :=
  fold_left (fun acc kv => dict_set kv.1 kv.2 acc) src d.

Definition keys (d : dict) : list string := map fst d.

Definition common_params : dict :=
  [ ("device_platform", "webapp");
    ("aid", "6383");
    ("channel", "channel_pc_web");
    ("cookie_enabled", "true");
    ("browser_language", "zh-CN");
    ("browser_platform", "Win32");
    ("browser_name", "Firefox");
    ("browser_version", "110.0");
    ("browser_online", "true");
    ("engine_name", "Gecko");
    ("os_name", "Windows");
    ("os_version", "10");
    ("engine_version", "109.0");
    ("platform", "PC");
    ("screen_width", "1920");
    ("screen_height", "1200") ]%string.

(** ["&".join(...)] *)
Fixpoint join (sep : string) (l : list string) : string :=
  match l with
  | [] => ""
  | [x] => x
  | x :: l' => x +:+ sep +:+ join sep l'
  end.

Definition pair_str (kv : string * string) : string := kv.1 +:+ "=" +:+ kv.2.

(** ["&".join([f"{k}={v}" for k, v in params.items()])] *)
Definition query_of (d : dict) : string := join "&" (map pair_str d).

Definition x_bogus_key : string := "X-Bogus".
Definition user_agent_key : string := "User-Agent".

(** What a call leaves behind: the argument dict as it now is (it is
    mutated in place, also when the call raises), the calls made to the
    script evaluator, and the exception if one escaped. *)
Record signing := {
  params_after : option dict;
  sign_calls : list (string * string);
  raised : option py_exn
}.

Section Sign.
(** [douyin_js_obj.call("sign", query, user_agent)]: the evaluator of
    [libs/douyin.js], outside the repository.  [None]: it raised. *)
Variable js_sign : string -> string -> option string.
(** [self.headers] *)
Variable self_headers : gmap string string.
(** [await self.playwright_page.evaluate("() => window.localStorage")]:
    the read returns, its value is not used, or it raises, with an
    [AttributeError] when the client has no page. *)
Variable local_storage : result unit.
(** [execjs.compile(open("libs/douyin.js").read())]: the script is read
    and compiled into the evaluator that [js_sign] calls, or one of the
    two raises. *)
Variable douyin_js : result unit.

(** [headers or self.headers]: [None] and the empty dict are falsy. *)
Definition headers_or (headers : option (gmap string string)) : gmap string string :=
  match headers with
  | Some h => if decide (h = ∅) then self_headers else h
  | None => self_headers
  end.

(** The storage read and the compilation come before [params.update]:
    when one of them raises, the dict is as the caller passed it. *)
Definition process_req_params (params : option dict)
    (headers : option (gmap string string)) : signing :=
  match params with
  | None | Some [] =>
      {| params_after := params; sign_calls := []; raised := None |}
  | Some p =>
      let hs := headers_or headers in
      match local_storage with
      | inl e => {| params_after := Some p; sign_calls := []; raised := Some e |}
      | inr _ =>
          match douyin_js with
          | inl e => {| params_after := Some p; sign_calls := []; raised := Some e |}
          | inr _ =>
              let p1 := dict_update p common_params in
              let query := query_of p1 in
              match hs !! user_agent_key with
              | None =>
                  {| params_after := Some p1; sign_calls := [];
                     raised := Some (KeyError user_agent_key) |}
              | Some ua =>
                  match js_sign query ua with
                  | None =>
                      {| params_after := Some p1; sign_calls := [(query, ua)];
                         raised := Some (JsError "sign") |}
                  | Some x_bogus =>
                      {| params_after := Some (dict_set x_bogus_key x_bogus p1);
                         sign_calls := [(query, ua)]; raised := None |}
                  end
              end
          end
      end
  end.

(** The signature a call stored, if it did. *)
Definition signature_of (r : signing) : option string :=
  match raised r with
  | None => params_after r ≫= dict_get x_bogus_key
  | Some _ => None
  end.

End Sign.

(** ** Sample inputs *)

Definition sample_headers : gmap string string :=
  {[ user_agent_key := "Mozilla/5.0"%string ]}.

Definition sample_params : dict :=
  [ ("aweme_id", "7306880126984211724"); ("cursor", "0");
    ("count", "20"); ("item_type", "0") ]%string.

(** An evaluator that tells queries apart. *)
Definition echo_sign (query ua : string) : option string := Some query.


(** A page whose storage can be read, a script that compiles. *)
Definition ready : result unit := ok tt.

End Signing.

(* ===================================================================== *)
(** * utils.py: trajectory synthesis *)
(* ===================================================================== *)

Module Tracks.

(** The float nearest to an integer, ties to even; an infinity when the
    integer is beyond the largest float. *)
Definition nearest_float (z : Z) : float :=
  SF2Prim (binary_normalize prec emax z 0 false).

(** [float(z)], the conversion Python applies to an [int] operand of a
    float operation: the nearest float, or [OverflowError]. *)
Definition float_of_int (z : Z) : result float :=
  let f := nearest_float z in
  if is_infinity f then raise OverflowError else ok f.

(** An integer as the spec float [z * 2^0], not rounded. *)
Definition exact_int (z : Z) : spec_float :=
  match z with
  | Z0 => S754_zero false
  | Zpos m => S754_finite false m 0
  | Zneg m => S754_finite true m 0
  end.

(** [a / b] of two [int]s, [b] positive: the exact quotient rounded once
    to the nearest float, or [OverflowError]. *)
Definition int_truediv (a : Z) (b : positive) : result float :=
  let f := SF2Prim (SFdiv prec emax (exact_int a) (exact_int (Zpos b))) in
  if is_infinity f then raise OverflowError else ok f.

(** [f < z] of a float and an [int]: Python compares the two values
    exactly, without converting the [int]. *)
Definition float_lt_int (f : float) (z : Z) : bool :=
  match Prim2SF f with
  | S754_nan => false
  | S754_infinity s => s
  | S754_zero _ => 0 <? z
  | S754_finite s m e =>
      let v := if s then Zneg m else Zpos m in
      if 0 <=? e then Z.shiftl v e <? z else v <? Z.shiftl z (- e)
  end.

(** [m * 2^e] rounded to the nearest integer, ties to even. *)
Definition round_half_even (m : positive) (e : Z) : Z :=
  if 0 <=? e then Z.shiftl (Zpos m) e
  else
    let d := Z.shiftl 1 (- e) in
    let q := Zpos m / d in
    let r := Zpos m mod d in
    match 2 * r ?= d with
    | Lt => q
    | Gt => q + 1
    | Eq => if Z.even q then q else q + 1
    end.

(** [m * 2^e] rounded up. *)
Definition round_up (m : positive) (e : Z) : Z :=
  if 0 <=? e then Z.shiftl (Zpos m) e
  else
    let d := Z.shiftl 1 (- e) in
    if Zpos m mod d =? 0 then Zpos m / d else Zpos m / d + 1.

(** [round(f)] of a Python float, an [int]. *)
Definition py_round (f : float) : result Z :=
  match Prim2SF f with
  | S754_zero _ => ok 0
  | S754_infinity _ => raise OverflowError
  | S754_nan => raise ValueError
  | S754_finite s m e =>
      let mag := round_half_even m e in
      ok (if s then - mag else mag)
  end.

(** [ceil(f)] *)
Definition py_ceil (f : float) : result Z :=
  match Prim2SF f with
  | S754_zero _ => ok 0
  | S754_infinity _ => raise OverflowError
  | S754_nan => raise ValueError
  | S754_finite false m e => ok (round_up m e)
  | S754_finite true m e =>
      ok (- (if 0 <=? e then Z.shiftl (Zpos m) e else Zpos m / Z.shiftl 1 (- e)))
  end.

(** ** [get_track_simple] *)

(** The [while] loop.  [None]: the fuel ran out before the loop ended.
    [current] and [v] start as the [int]s 0 and 1 and are floats from the
    first pass on; an [int] operand of a float operation is converted, and
    0, 1, 2, 4 and -3 convert exactly. *)
Fixpoint track_loop (fuel : nat) (distance : Z) (mid t : float)
    (current v : float) (track : list Z) : option (result (list Z)) :=
  match fuel with
  | O => None
  | S fuel' =>
      if float_lt_int current distance then
        let a := if (current <? mid)%float then 4%float else (- 3)%float in
        let v0 := v in
        let v := (v0 + a * t)%float in
        let move := (v0 * t + 1 / 2 * a * t * t)%float in
        let current := (current + move)%float in
        match py_round move with
        | inr step => track_loop fuel' distance mid t current v (track ++ [step])
        | inl e => Some (raise e)
        end
      else Some (ok track)
  end.

Definition get_track_simple (fuel : nat) (distance : Z) : option (result (list Z)) :=
  let current := 0%float in
  match int_truediv (distance * 4) 5 with
  | inl e => Some (raise e)
  | inr mid =>
      let t := 0.2%float in
      let v := 1%float in
      track_loop fuel distance mid t current v []
  end.

(** ** [_get_tracks] *)

(** The largest array length, [NPY_MAX_INTP]. *)
Definition max_intp : Z := 2 ^ 63 - 1.

(** [np.arange(start, stop, step)] with floats [start] and [step] and an
    [int] [stop].  The length is [ceil((stop - start) / step)]; NumPy
    raises a [ValueError] when it cannot be computed (the conversion of
    [stop] overflows, or the quotient is not a number) or is no array
    length, and gives no samples when it is not positive.  The first
    sample is [start], the second [start + step], the others
    [start + i * delta] with [delta] the difference of the first two. *)
Definition arange (start : float) (stop : Z) (step : float) : result (list float) :=
  match (stop ← float_of_int stop; py_ceil ((stop - start) / step)%float) with
  | inl _ => raise ValueError
  | inr n =>
      if (n <? - max_intp - 1) || (max_intp <? n) then raise ValueError
      else
        let second := (start + step)%float in
        let delta := (second - start)%float in
        ok (map (fun i : nat =>
                   match i with
                   | O => start
                   | S O => second
                   | _ => (start + nearest_float (Z.of_nat i) * delta)%float
                   end)
                (seq 0 (Z.to_nat n)))
  end.

(** [round(ease(t / seconds) * distance)], the offset at sample [t]. *)
Definition offset_at (ease : float -> float) (distance seconds : Z) (t : float) : result Z :=
  s ← float_of_int seconds;
  d ← float_of_int distance;
  py_round (ease (t / s) * d)%float.

Section Eased.
(** The module's global names that are easing curves.  [utils.py]
    looks [ease_func] up with [globals()[ease_func]]. *)
Variable globals : string -> option (float -> float).

(** The body of the [for] loop, over the samples still to come. *)
Fixpoint tracks_loop (distance seconds : Z) (ease_func : string)
    (ts : list float) (tracks offsets : list Z) : result (list Z * list Z) :=
  match ts with
  | [] => ok (offsets, tracks)
  | t :: ts' =>
      match globals ease_func with
      | None => raise (KeyError ease_func)
      | Some ease =>
          offset ← offset_at ease distance seconds t;
          tracks_loop distance seconds ease_func ts'
                      (tracks ++ [offset - List.last offsets 0])
                      (offsets ++ [offset])
      end
  end.

Definition _get_tracks (distance seconds : Z) (ease_func : string)
  : result (list Z * list Z) :=
  ts ← arange 0.0%float seconds 0.1%float;
  tracks_loop distance seconds ease_func ts [0] [0].

(** [get_tracks] as first defined; the name is rebound further down. *)
Definition get_tracks_shadowed (fuel : nat) (distance : Z) (level : string)
  : option (result (list Z)) :=
  if String.eqb level "easy" then get_track_simple fuel distance
  else Some (r ← _get_tracks distance 2 "ease_out_expo"; mret r.2).

(** [easing.get_tracks], of a module [easing] that is not in the
    repository; [None] when the import fails. *)
Variable easing_get_tracks : option (Z -> Z -> string -> result (list Z * list Z)).

(** [get_tracks] as the module exports it. *)
Definition get_tracks (fuel : nat) (distance : Z) (level : string)
  : option (result (list Z)) :=
  if String.eqb level "easy" then get_track_simple fuel distance
  else
    match easing_get_tracks with
    | None => Some (raise (ImportError "easing"))
    | Some f => Some (r ← f distance 2 "ease_out_expo"; mret r.2)
    end.
End Eased.

(** The samples of the eased policy, [np.arange(0.0, 2, 0.1)]. *)
Definition eased_samples : list float :=
  Eval vm_compute in
    match arange 0.0%float 2 0.1%float with
    | inr ts => ts
    | inl _ => []
    end.

(** The sum of the deltas of a track that was returned. *)
Definition track_sum (r : option (result (list Z))) : option Z :=
  match r with
  | Some (inr track) => Some (sumZ track)
  | _ => None
  end.

(** The last sample of the eased policy. *)
Definition last_sample : float := List.last eased_samples 0%float.

(** ** Sample easing curves *)

(** A namespace with one curve under the name the eased policy asks for. *)
Definition only_curve (ease : float -> float) (name : string) : option (float -> float) :=
  if String.eqb name "ease_out_expo" then Some ease else None.

Definition linear (x : float) : float := x.

End Tracks.

(* ===================================================================== *)
(** * utils.py: [Slide], the gap locator *)
(* ===================================================================== *)

Module Captcha.

(** A pixel is its channel values, an image its rows of pixels. *)
Abbreviation pixel := (list Z).
Abbreviation image := (list (list pixel)).

Definition rows_of (img : image) : Z := len img.
Definition cols_of (img : image) : Z := len (List.hd [] img).

(** An array without elements. *)
Definition is_empty_image (img : image) : bool :=
  forallb (fun row => match row with [] => true | _ => false end) img.

(** [img[x, y]] *)
Definition pixel_at (img : image) (x y : Z) : option pixel :=
  row ← img !! Z.to_nat x; row !! Z.to_nat y.

Record bbox := { min_x : Z; min_y : Z; max_x : Z; max_y : Z }.

Definition bbox0 : bbox := {| min_x := 255; min_y := 255; max_x := 0; max_y := 0 |}.

(** The body of the two nested loops of [clear_white]. *)
Definition scan_pixel (img : image) (x y : Z) (b : bbox) : bbox :=
  match pixel_at img x y with
  | None => b
  | Some p =>
      if 2 <=? len (remove_dups p) then
        let b1 :=
          if x <=? min_x b
          then {| min_x := x; min_y := min_y b; max_x := max_x b; max_y := max_y b |}
          else if max_x b <=? x
          then {| min_x := min_x b; min_y := min_y b; max_x := x; max_y := max_y b |}
          else b in
        if y <=? min_y b1
        then {| min_x := min_x b1; min_y := y; max_x := max_x b1; max_y := max_y b1 |}
        else if max_y b1 <=? y
        then {| min_x := min_x b1; min_y := min_y b1; max_x := max_x b1; max_y := y |}
        else b1
      else b
  end.

(** [range(1, n)] *)
Definition range1 (n : Z) : list Z := seqZ 1 (n - 1).

Definition scan (img : image) : bbox :=
  fold_left
    (fun b x => fold_left (fun b y => scan_pixel img x y b) (range1 (cols_of img)) b)
    (range1 (rows_of img)) bbox0.

(** [img[min_x:max_x, min_y:max_y]] *)
Definition crop (img : image) (b : bbox) : image :=
  map (fun row => py_slice row (min_y b) (max_y b)) (py_slice img (min_x b) (max_x b)).

(** What [cv2.minMaxLoc] returns; a location is [(x, y)]. *)
Record min_max_loc := {
  min_val : float; max_val : float; min_loc : Z * Z; max_loc : Z * Z
}.

(** What a variable of the class holds for an image: an array, or
    [None]. *)
Abbreviation array := (option image).

(** The functions of OpenCV the class calls.  They are outside the
    repository, and each is handed whatever the variable holds, [None]
    included; [imread] returns [None] for a file it cannot decode. *)
Record opencv := {
  corr : Type;
  imread : string -> option Z -> array;
  cvtColor : array -> Z -> result array;
  Canny : array -> Z -> Z -> result array;
  matchTemplate : array -> array -> Z -> result corr;
  minMaxLoc : corr -> min_max_loc;
  rectangle : array -> Z * Z -> Z * Z -> Z * Z * Z -> Z -> result array;
  imwrite : string -> array -> result bool
}.

Definition COLOR_RGB2GRAY : Z := 7.
Definition COLOR_GRAY2RGB : Z := 8.
Definition TM_CCOEFF_NORMED : Z := 5.

Record slide := { gap : string; bg : string; out : string }.

Section Slide.
Variable cv2 : opencv.

(** [clear_white]: [img.shape] of [None] is an [AttributeError]. *)
Definition clear_white (path : string) : result array :=
  match imread cv2 path None with
  | None => raise (AttributeError "shape")
  | Some img => ok (Some (crop img (scan img)))
  end.

(** [image_edge_detection] hands its argument to [cv2.Canny] as it is. *)
Definition image_edge_detection (img : array) : result array :=
  edges ← Canny cv2 img 100 200;
  mret edges.

(** [template_match]: the x coordinate of the best match, and the
    annotated target written to [self.out].  [tpl.shape] of [None] is an
    [AttributeError]; [cv2.rectangle] draws on [target] itself. *)
Definition template_match (self : slide) (tpl target : array)
  : result (Z * (string * array)) :=
  match tpl with
  | None => raise (AttributeError "shape")
  | Some t =>
      let th := rows_of t in
      let tw := cols_of t in
      res ← matchTemplate cv2 target tpl TM_CCOEFF_NORMED;
      let tl := max_loc (minMaxLoc cv2 res) in
      let br := (tl.1 + tw, tl.2 + th) in
      target ← rectangle cv2 target tl br (0, 0, 255) 2;
      _ ← imwrite cv2 (out self) target;
      mret (tl.1, (out self, target))
  end.

Definition discern (self : slide) : result (Z * (string * array)) :=
  img1 ← clear_white (gap self);
  img1 ← cvtColor cv2 img1 COLOR_RGB2GRAY;
  slide ← image_edge_detection img1;
  let back := imread cv2 (bg self) (Some COLOR_RGB2GRAY) in
  back ← image_edge_detection back;
  slide_pic ← cvtColor cv2 slide COLOR_GRAY2RGB;
  back_pic ← cvtColor cv2 back COLOR_GRAY2RGB;
  template_match self slide_pic back_pic.

(** The two conditions the specification names. *)
Definition background_undecodable (self : slide) : Prop :=
  imread cv2 (bg self) (Some COLOR_RGB2GRAY) = None.

Definition bbox_degenerate (self : slide) : Prop :=
  exists img, imread cv2 (gap self) None = Some img /\
              is_empty_image (crop img (scan img)) = true.

(** Three ways OpenCV can treat what is no image.  It refuses an array
    without elements; *)
Definition rejects_empty : Prop :=
  forall img code, is_empty_image img = true -> fails (cvtColor cv2 (Some img) code).

(** its colour conversion refuses [None]; *)
Definition rejects_none : Prop :=
  forall code, fails (cvtColor cv2 None code).

(** its edge detector makes no image out of [None]. *)
Definition edges_of_none : Prop :=
  forall low high edges, Canny cv2 None low high = ok edges -> edges = None.
End Slide.

(** ** A small stand-in for OpenCV and sample files *)

Definition white : pixel := [255; 255; 255].
Definition red : pixel := [0; 0; 255].

(** A 4 by 4 piece with a coloured 2 by 2 middle. *)
Definition piece : image :=
  [ [white; white; white; white];
    [white; red; red; white];
    [white; red; red; white];
    [white; white; white; white] ].

Definition blank : image := [ [white; white]; [white; white] ].

Definition files (path : string) : option image :=
  if String.eqb path "piece.png" then Some piece
  else if String.eqb path "blank.png" then Some blank
  else if String.eqb path "bg.jpg" then Some piece
  else None.

Definition sample_cv2 : opencv :=
  {| corr := unit;
     imread := fun path _ => files path;
     cvtColor := fun img _ =>
       match img with
       | None => raise (CvError "cvtColor")
       | Some i => if is_empty_image i then raise (CvError "cvtColor") else ok (Some i)
       end;
     Canny := fun img _ _ => ok img;
     matchTemplate := fun target tpl _ =>
       match target, tpl with
       | Some target, Some tpl =>
           if (rows_of target <? rows_of tpl) || (cols_of target <? cols_of tpl)
           then raise (CvError "matchTemplate") else ok tt
       | _, _ => raise (CvError "matchTemplate")
       end;
     minMaxLoc := fun _ =>
       {| min_val := 0%float; max_val := 1%float; min_loc := (0, 0); max_loc := (1, 1) |};
     rectangle := fun target _ _ _ _ => ok target;
     imwrite := fun _ _ => ok true |}.

Definition slide_ok : slide :=
  {| gap := "piece.png"; bg := "bg.jpg"; out := "temp_image/out.jpg" |}.
Definition slide_no_gap : slide :=
  {| gap := "missing.png"; bg := "bg.jpg"; out := "temp_image/out.jpg" |}.
Definition slide_no_bg : slide :=
  {| gap := "piece.png"; bg := "missing.jpg"; out := "temp_image/out.jpg" |}.
Definition slide_blank : slide :=
  {| gap := "blank.png"; bg := "bg.jpg"; out := "temp_image/out.jpg" |}.

End Captcha.

(* ===================================================================== *)
(** * crawler.py: the batch orchestrator *)
(* ===================================================================== *)

Module Orchestrator.

(** Where one task ([get_aweme_detail] or [get_comments]) stands:
    before [async with semaphore], inside it, or past it, having returned
    normally or through its [except Exception] handler. *)
Inductive task :=
| Pending
| InFlight
| Returned
| Logged.

Global Instance task_eq_dec : EqDecision task.
Proof. solve_decision. Defined.

(** The semaphore's counter and the tasks created over it. *)
Record pool := { permits : nat; tasks : list task }.

(** One scheduling step of the event loop.  A task enters the block by
    taking a permit when one is left; it stays inside across the awaits
    of its fetch; it leaves by returning or by the handler, and leaving
    the block gives the permit back either way. *)
Inductive step : pool -> pool -> Prop :=
| step_acquire p ts i :
    ts !! i = Some Pending ->
    step {| permits := S p; tasks := ts |}
         {| permits := p; tasks := <[i := InFlight]> ts |}
| step_await p ts i :
    ts !! i = Some InFlight ->
    step {| permits := p; tasks := ts |} {| permits := p; tasks := ts |}
| step_return p ts i :
    ts !! i = Some InFlight ->
    step {| permits := p; tasks := ts |}
         {| permits := S p; tasks := <[i := Returned]> ts |}
| step_except p ts i :
    ts !! i = Some InFlight ->
    step {| permits := p; tasks := ts |}
         {| permits := S p; tasks := <[i := Logged]> ts |}.

Definition in_flight (ts : list task) : nat :=
  length (List.filter (fun t => bool_decide (t = InFlight)) ts).

(** The permits a task holds. *)
Definition holds (t : task) : nat := if bool_decide (t = InFlight) then 1%nat else 0%nat.

(** Permits left plus permits held. *)
Definition accounted (s : pool) : nat := (permits s + in_flight (tasks s))%nat.

Definition finished (t : task) : bool :=
  match t with
  | Returned | Logged => true
  | _ => false
  end.

Definition all_finished (ts : list task) : bool := forallb finished ts.

(** [semaphore = asyncio.Semaphore(os.cpu_count())] and one task per
    item: the state [batch_get_note_comments] starts from. *)
Definition start (cpu_count : nat) (aweme_list : list string) : pool :=
  {| permits := cpu_count; tasks := map (fun _ => Pending) aweme_list |}.

(** [get_specified_awemes]: the detail tasks under one semaphore, and,
    once [gather] has them all, the comment tasks under a new one. *)
Inductive phase :=
| Details (s : pool)
| Comments (s : pool).

Definition pool_of (ph : phase) : pool :=
  match ph with Details s | Comments s => s end.

Inductive phase_step (cpu_count : nat) (aweme_list : list string) : phase -> phase -> Prop :=
| phase_details s s' :
    step s s' -> phase_step cpu_count aweme_list (Details s) (Details s')
| phase_gathered s :
    all_finished (tasks s) = true ->
    phase_step cpu_count aweme_list (Details s) (Comments (start cpu_count aweme_list))
| phase_comments s s' :
    step s s' -> phase_step cpu_count aweme_list (Comments s) (Comments s').

(** The states a run of [batch_get_note_comments] passes through. *)
Definition batch_get_note_comments (cpu_count : nat) (aweme_list : list string)
  : pool -> Prop :=
  rtc step (start cpu_count aweme_list).

(** The states a run of [get_specified_awemes] passes through. *)
Definition get_specified_awemes (cpu_count : nat) (aweme_list : list string)
  : phase -> Prop :=
  rtc (phase_step cpu_count aweme_list) (Details (start cpu_count aweme_list)).

End Orchestrator.

(* ===================================================================== *)
(** * utils.py and client.py: cookies *)
(* ===================================================================== *)

Module Cookies.
Import Stdlib.Strings.Ascii.

(** [", ".join(...)]-style joining is [Signing.join]; a separator is one
    character here. *)
Definition sep_str (sep : ascii) : string := String sep "".

(** [sep] does not occur in [s]. *)
Fixpoint sep_free (sep : ascii) (s : string) : bool :=
  match s with
  | EmptyString => true
  | String a s' => negb (Ascii.eqb a sep) && sep_free sep s'
  end.

(** [s.split(sep)] for a separator of one character: the pieces between
    the separators, at least one piece. *)
Fixpoint py_split (sep : ascii) (s : string) : list string :=
  match s with
  | EmptyString => [EmptyString]
  | String a s' =>
      if Ascii.eqb a sep then EmptyString :: py_split sep s'
      else
        match py_split sep s' with
        | piece :: pieces => String a piece :: pieces
        | [] => [String a EmptyString]
        end
  end.

(** The characters [str.isspace] accepts, as their UTF-8 bytes:
    U+0009..U+000D, U+001C..U+0020, U+0085, U+00A0, U+1680,
    U+2000..U+200A, U+2028, U+2029, U+202F, U+205F and U+3000. *)
Definition whitespace : list (list nat) :=
  map (fun b => [b]) [9; 10; 11; 12; 13; 28; 29; 30; 31; 32]%nat
  ++ [[194; 133]; [194; 160]; [225; 154; 128]]%nat
  ++ map (fun b => [226; 128; b]%nat) (seq 128 11)
  ++ [[226; 128; 168]; [226; 128; 169]; [226; 128; 175]; [226; 129; 159];
      [227; 128; 128]]%nat.

Fixpoint starts_with (w bytes : list nat) : bool :=
  match w, bytes with
  | [], _ => true
  | x :: w', y :: bytes' => Nat.eqb x y && starts_with w' bytes'
  | _ :: _, [] => false
  end.

(** The bytes of the whitespace character [bytes] starts with, if any. *)
Definition leading_space (table : list (list nat)) (bytes : list nat) : option (list nat) :=
  List.find (fun w => starts_with w bytes) table.

(** Drop whitespace characters from the front. *)
Fixpoint lstrip_bytes (fuel : nat) (table : list (list nat)) (bytes : list nat) : list nat :=
  match fuel with
  | O => bytes
  | S fuel' =>
      match leading_space table bytes with
      | Some w => lstrip_bytes fuel' table (skipn (length w) bytes)
      | None => bytes
      end
  end.

Definition bytes_of (s : string) : list nat :=
  map Ascii.nat_of_ascii (String.list_ascii_of_string s).

Definition string_of (bytes : list nat) : string :=
  String.string_of_list_ascii (map Ascii.ascii_of_nat bytes).

(** [s.strip()] *)
Definition py_strip (s : string) : string :=
  let front := lstrip_bytes (String.length s) whitespace (bytes_of s) in
  let back := lstrip_bytes (String.length s) (map (@rev nat) whitespace) (rev front) in
  string_of (rev back).

(** A browser cookie; [name] and [value] are what the code reads. *)
Record cookie := { cookie_name : string; cookie_value : string }.

(** [f"{cookie.get('name')}={cookie.get('value')}"] *)
Definition cookie_pair (c : cookie) : string :=
  cookie_name c +:+ "=" +:+ cookie_value c.

(** [convert_cookies] *)
Definition convert_cookies (cookies : option (list cookie)) : string * gmap string string :=
  match cookies with
  | None | Some [] => (EmptyString, ∅)
  | Some cs =>
      (Signing.join ";" (map cookie_pair cs),
       fold_left (fun d c => <[cookie_name c := cookie_value c]> d) cs ∅)
  end.

(** [Client.pong], given what [browser_context.cookies()] returned. *)
Definition pong (cookies : option (list cookie)) : bool :=
  bool_decide ((convert_cookies cookies).2 !! "LOGIN_STATUS"%string = Some "1"%string).

(** [self.headers] and [self.cookie_dict] of a [Client]. *)
Record client_state := {
  cl_headers : gmap string string;
  cl_cookie_dict : gmap string string
}.

(** [Client.update_cookies] *)
Definition update_cookies (self : client_state) (cookies : option (list cookie))
  : client_state :=
  let '(cookie_str, cookie_dict) := convert_cookies cookies in
  {| cl_headers := <["Cookie"%string := cookie_str]> (cl_headers self);
     cl_cookie_dict := cookie_dict |}.

(** The body of the loop of [convert_str_cookie_to_dict]. *)
Definition add_cookie (cookie_dict : gmap string string) (cookie : string)
  : gmap string string :=
  let cookie := py_strip cookie in
  match cookie with
  | EmptyString => cookie_dict
  | _ =>
      match py_split "=" cookie with
      | [k; v] => <[k := v]> cookie_dict
      | _ => cookie_dict
      end
  end.

(** [convert_str_cookie_to_dict] *)
Definition convert_str_cookie_to_dict (cookie_str : string) : gmap string string :=
  match cookie_str with
  | EmptyString => ∅
  | _ => fold_left add_cookie (py_split ";" cookie_str) ∅
  end.

(** The cookies named [n], in the order the browser gave them. *)
Definition named (n : string) (cs : list cookie) : list cookie :=
  List.filter (fun c => String.eqb (cookie_name c) n) cs.

(** A cookie that survives the trip through a header string: no [;] and
    no [=] inside, and nothing for [strip] to take away. *)
Definition plain (c : cookie) : Prop :=
  sep_free ";" (cookie_name c) = true /\ sep_free ";" (cookie_value c) = true /\
  sep_free "=" (cookie_name c) = true /\ sep_free "=" (cookie_value c) = true /\
  py_strip (cookie_pair c) = cookie_pair c.

(** ** Sample cookies *)

Definition sample_cookies : list cookie :=
  [ {| cookie_name := "ttwid"; cookie_value := "1%7Cabc" |};
    {| cookie_name := "LOGIN_STATUS"; cookie_value := "0" |};
    {| cookie_name := "LOGIN_STATUS"; cookie_value := "1" |} ].

End Cookies.

(* ===================================================================== *)
(** * client.py: the requests *)
(* ===================================================================== *)

Module Http.
Import Signing.

(** What [request] is called with. *)
Record http_request := {
  req_method : string;
  req_url : string;
  req_params : option dict;
  req_data : option dict;
  req_headers : gmap string string
}.

(** What a call did: the requests it sent, the calls it made to the
    script evaluator, what it returned or raised, and the dict it was given
    as it now is. *)
Record exchange (J : Type) := {
  sent : list http_request;
  signed : list (string * string);
  answer : result J;
  params_now : option dict
}.
Arguments sent {J}.
Arguments signed {J}.
Arguments answer {J}.
Arguments params_now {J}.

Definition base_url : string := "https://www.douyin.com".

Section Client.
(** The decoded JSON of a response. *)
Variable J : Type.
(** [dict.get] on a decoded response, and the empty object. *)
Variable json_get : J -> string -> option J.
Variable json_empty : J.
(** [Client.request]: the decoded response, or the exception raised. *)
Variable request : http_request -> result J.
Variable js_sign : string -> string -> option string.
(** [self.headers] *)
Variable self_headers : gmap string string.
(** What reading [window.localStorage] and compiling [libs/douyin.js]
    do when a call is signed. *)
Variable local_storage : result unit.
Variable douyin_js : result unit.
(** [urllib.parse.quote(string, safe)] *)
Variable quote : string -> string -> string.
(** [request_keyword_var.get()] *)
Variable request_keyword : string.

(** [Client.get] *)
Definition get (uri : string) (params : option dict)
    (headers : option (gmap string string)) : exchange J :=
  let s := process_req_params js_sign self_headers local_storage douyin_js params headers in
  match raised s with
  | Some e =>
      {| sent := []; signed := sign_calls s; answer := raise e;
         params_now := params_after s |}
  | None =>
      let headers := headers_or self_headers headers in
      let rq := {| req_method := "GET"; req_url := base_url +:+ uri;
                   req_params := params_after s; req_data := None;
                   req_headers := headers |} in
      {| sent := [rq]; signed := sign_calls s; answer := request rq;
         params_now := params_after s |}
  end.

(** [Client.post] *)
Definition post (uri : string) (data : dict)
    (headers : option (gmap string string)) : exchange J :=
  let s := process_req_params js_sign self_headers local_storage douyin_js (Some data) headers in
  match raised s with
  | Some e =>
      {| sent := []; signed := sign_calls s; answer := raise e;
         params_now := params_after s |}
  | None =>
      let headers := headers_or self_headers headers in
      let rq := {| req_method := "POST"; req_url := base_url +:+ uri;
                   req_params := None; req_data := params_after s;
                   req_headers := headers |} in
      {| sent := [rq]; signed := sign_calls s; answer := request rq;
         params_now := params_after s |}
  end.

(** [Client.get_video_by_id]: [del headers["Origin"]] works on a copy of
    [self.headers] and raises a [KeyError] when there is no such entry. *)
Definition get_video_by_id (aweme_id : string) : exchange J :=
  let params := [("aweme_id"%string, aweme_id)] in
  match self_headers !! "Origin"%string with
  | None =>
      {| sent := []; signed := []; answer := raise (KeyError "Origin");
         params_now := Some params |}
  | Some _ =>
      let headers := delete "Origin"%string self_headers in
      let ex := get "/aweme/v1/web/aweme/detail/" (Some params) (Some headers) in
      {| sent := sent ex; signed := signed ex;
         answer := res ← answer ex;
                   mret (default json_empty (json_get res "aweme_detail"));
         params_now := params_now ex |}
  end.

(** [Client.get_aweme_comments].  The headers with the [Referer] are
    built and then not passed on. *)
Definition get_aweme_comments (aweme_id : string) (cursor : Z) : exchange J :=
  let uri := "/aweme/v1/web/comment/list/"%string in
  let params := [ ("aweme_id", aweme_id); ("cursor", pretty cursor);
                  ("count", pretty 20); ("item_type", pretty 0) ]%string in
  let keywords := request_keyword in
  let referer_url :=
    ("https://www.douyin.com/search/" +:+ keywords +:+
     "?aid=3a3cec5a-9e27-4040-b6aa-ef548c2c1138&publish_time=0&sort_type=0&source=search_history&type=general")%string in
  let headers := <["Referer"%string := quote referer_url ":/"]> self_headers in
  get uri (Some params) None.

End Client.

(** ** Sample client *)

Definition sample_client_headers : gmap string string :=
  {[ "User-Agent"%string := "Mozilla/5.0"%string;
     "Origin"%string := "https://www.douyin.com/"%string;
     "Referer"%string := "https://www.douyin.com/"%string ]}.

(** A transport that answers every request with nothing. *)
Definition no_answer (rq : http_request) : result unit := ok tt.

End Http.

(* ===================================================================== *)
(** * crawler.py: the crawler *)
(* ===================================================================== *)

Module Crawl.

(** The Python values a keyword argument of [Crawler] can hold. *)
Inductive pyval :=
| PNone
| PBool (b : bool)
| PInt (z : Z)
| PStr (s : string)
| PList (l : list string).

(** [bool(v)] *)
Definition truthy (v : pyval) : bool :=
  match v with
  | PNone => false
  | PBool b => b
  | PInt z => negb (z =? 0)
  | PStr s => negb (String.eqb s "")
  | PList l => match l with [] => false | _ => true end
  end.

(** [a or b] *)
Definition py_or (a b : pyval) : pyval := if truthy a then a else b.

(** [kwargs.get(key)] *)
Definition kwargs_get (kwargs : gmap string pyval) (key : string) : pyval :=
  default PNone (kwargs !! key).

(** The attributes [__init__] takes from [kwargs]. *)
Record crawler := {
  headless : pyval;
  login_type : pyval;
  cookie_str : pyval;
  max_note_count : pyval;
  max_comments : pyval;
  search_comment_keywords : pyval;
  save_login_state : pyval
}.

(** [Crawler.__init__], its keyword arguments. *)
Definition init (kwargs : gmap string pyval) : crawler :=
  {| headless := py_or (PBool (truthy (kwargs_get kwargs "headless"))) (PBool true);
     login_type := py_or (kwargs_get kwargs "login_type") (PStr "qrcode");
     cookie_str := kwargs_get kwargs "cookies";
     max_note_count := py_or (kwargs_get kwargs "max_note_count") (PInt 32);
     max_comments := py_or (kwargs_get kwargs "max_comments") (PInt 0);
     search_comment_keywords := kwargs_get kwargs "search_comment_keywords";
     save_login_state := py_or (kwargs_get kwargs "save_login_state") (PBool true) |}.

(** Which way [launch_browser] starts Chromium. *)
Inductive launch :=
| LaunchPersistentContext (user_data_dir : string) (headless : pyval)
| LaunchAndNewContext (headless : pyval).

(** [Crawler.launch_browser], called by [start] with
    [headless=self.headless]; [user_data_dir] is
    [os.path.join(os.getcwd(), "browser_data")]. *)
Definition launch_browser (self : crawler) (user_data_dir : string) : launch :=
  if truthy (save_login_state self)
  then LaunchPersistentContext user_data_dir (headless self)
  else LaunchAndNewContext (headless self).

(** ** [Crawler.search] *)

(** An item of a search result, a JSON object with an [aweme_id]. *)
Abbreviation aweme := (gmap string string).

(** The value under ["aweme_mix_info"] of a post: the key is missing, or
    holds [null], or holds an object whose ["mix_items"] is missing or
    [null] ([None]) or a list. *)
Inductive mix_info :=
| MixMissing
| MixNull
| MixObject (mix_items : option (list aweme)).

(** One entry of ["data"]; [aweme_info] is [None] when the key is missing
    or holds [null]. *)
Record post_item := {
  aweme_info : option aweme;
  aweme_mix_info : mix_info
}.

(** The decoded response of one search call; [data] is [None] when the
    key is missing or holds [null]. *)
Record posts_res := { data : option (list post_item) }.

(** The exceptions that the [except TypeError] around the choice of
    [aweme_info] does not catch, and the one of iterating [None]. *)
Inductive escaped :=
| NoneHasNoGet
| IndexOutOfRange
| NoneNotIterable.

(** [post_item.get("aweme_mix_info", {}).get("mix_items")[0]]: the item,
    a [TypeError] that is caught ([None]: the post is skipped), or an
    exception that is not. *)
Definition first_mix_item (post : post_item) : escaped + option aweme :=
  match aweme_mix_info post with
  | MixMissing => inr None
  | MixNull => inl NoneHasNoGet
  | MixObject None => inr None
  | MixObject (Some []) => inl IndexOutOfRange
  | MixObject (Some (item :: _)) => inr (Some item)
  end.

(** [post_item.get("aweme_info") or ...]: an empty object is falsy. *)
Definition choose_aweme_info (post : post_item) : escaped + option aweme :=
  match aweme_info post with
  | Some info => if decide (info = ∅) then first_mix_item post else inr (Some info)
  | None => first_mix_item post
  end.

(** The [for post_item in posts_res.get("data")] loop: the ids appended
    to [aweme_list]. *)
Fixpoint collect_ids (posts : list post_item) (aweme_list : list string)
  : escaped + list string :=
  match posts with
  | [] => inr aweme_list
  | post :: posts' =>
      match choose_aweme_info post with
      | inl e => inl e
      | inr None => collect_ids posts' aweme_list
      | inr (Some info) =>
          collect_ids posts'
            (aweme_list ++ [default ""%string (info !! "aweme_id"%string)])
      end
  end.

(** What one call of [search_info_by_keyword] does. *)
Inductive search_reply :=
| Posts (res : posts_res)
| SearchRaises (msg : string).

(** What the paging loop does to the outside world. *)
Inductive search_event :=
| ESearch (keyword : string) (offset : Z)
| ELogError (keyword : string) (msg : string).

(** How the paging of one keyword ends: the list to hand to
    [batch_get_note_comments], an exception that leaves [search], or the
    script of replies running out (the model's own). *)
Inductive paging :=
| Collected (aweme_list : list string)
| Escaped (e : escaped)
| OutOfReplies.

Definition dy_limit_count : Z := 10.

(** The [while (page + 1) * dy_limit_count <= self.max_note_count] loop
    for one keyword, driven by the replies the search calls will get. *)
Fixpoint search_pages (max_note_count : Z) (keyword : string)
    (script : list search_reply) (page : Z) (aweme_list : list string)
  : list search_event * paging :=
  if (page + 1) * dy_limit_count <=? max_note_count then
    match script with
    | [] => ([], OutOfReplies)
    | SearchRaises msg :: _ =>
        ([ESearch keyword (page * dy_limit_count); ELogError keyword msg],
         Collected aweme_list)
    | Posts res :: script' =>
        let call := ESearch keyword (page * dy_limit_count) in
        match data res with
        | None => ([call], Escaped NoneNotIterable)
        | Some posts =>
            match collect_ids posts aweme_list with
            | inl e => ([call], Escaped e)
            | inr aweme_list' =>
                let '(evs, out) :=
                  search_pages max_note_count keyword script' (page + 1) aweme_list' in
                (call :: evs, out)
            end
        end
    end
  else ([], Collected aweme_list).

(** The offsets of the search calls of a trace. *)
Definition offsets_of (evs : list search_event) : list Z :=
  omap (fun e => match e with ESearch _ o => Some o | _ => None end) evs.

(** The ids one reply adds to an empty list, when it adds any. *)
Definition page_ids (rp : search_reply) : option (list string) :=
  match rp with
  | Posts {| data := Some posts |} =>
      match collect_ids posts [] with
      | inr ids => Some ids
      | inl _ => None
      end
  | _ => None
  end.

(** The offsets of the first [n] pages from page [p] on. *)
Definition page_offsets (p : Z) (n : nat) : list Z :=
  map (fun i => i * dy_limit_count) (seqZ p (Z.of_nat n)).

(** ** Sample posts *)

Definition post_with_id (aweme_id : string) : post_item :=
  {| aweme_info := Some {[ "aweme_id"%string := aweme_id ]};
     aweme_mix_info := MixMissing |}.

Definition page_of (ids : list string) : search_reply :=
  Posts {| data := Some (map post_with_id ids) |}.

End Crawl.

(* ===================================================================== *)
(** * Reading a harvest *)
(* ===================================================================== *)

Module HarvestTrace.
Import Harvest.

(** The cursors the fetches of a trace were made with. *)
Definition fetched_cursors (evs : list event) : list Z :=
  omap (fun e => match e with EFetch _ c => Some c | _ => None end) evs.



(** [comments_res.get("cursor", 0)] of a reply; a raised fetch has none. *)
Definition reply_cursor (rp : reply) : Z :=
  match rp with
  | Reply res => default 0 (res_cursor res)
  | Raises _ => 0
  end.

Definition is_reply (rp : reply) : bool :=
  match rp with Reply _ => true | Raises _ => false end.

(** [comments_res.get("has_more", 0)] is true. *)
Definition announces_more (res : comments_res) : bool :=
  py_truthy (default 0 (res_has_more res)).

(** [comments_res.get("comments", [])] *)
Definition comments_of (res : comments_res) : list comment :=
  default [] (res_comments res).

Definition has_comments (res : comments_res) : bool :=
  match comments_of res with [] => false | _ :: _ => true end.

(** A sample page as a decoded response. *)
Definition res_page (has_more cursor : Z) (cs : list comment) : comments_res :=
  {| res_has_more := Some has_more; res_cursor := Some cursor; res_comments := Some cs |}.

(** [max_comments] is [None] or [0]: no quota. *)
Definition no_quota (max_comments : option Z) : Prop :=
  max_comments = None \/ max_comments = Some 0.

End HarvestTrace.

(* ===================================================================== *)
(** * Reading a scan *)
(* ===================================================================== *)

(** A position is coloured when its pixel has two distinct channel values:
    the test [len(set(img[x, y])) >= 2] of [clear_white]. *)
Definition coloured (img : Captcha.image) (x y : Z) : Prop :=
  exists p, Captcha.pixel_at img x y = Some p /\ 2 <= len (remove_dups p).

(** The bounds of a box lie where the scan can put them. *)
Definition bbox_in_range (rows cols : Z) (b : Captcha.bbox) : Prop :=
  (Captcha.min_x b = 255 \/ 1 <= Captcha.min_x b < rows) /\ Captcha.min_x b <= 255 /\
  (Captcha.max_x b = 0 \/ 1 <= Captcha.max_x b < rows) /\
  (Captcha.min_y b = 255 \/ 1 <= Captcha.min_y b < cols) /\ Captcha.min_y b <= 255 /\
  (Captcha.max_y b = 0 \/ 1 <= Captcha.max_y b < cols).

(** A gap image with one more coloured pixel, in its top left corner. *)
Definition piece_marked : Captcha.image :=
  [ [Captcha.red; Captcha.white; Captcha.white; Captcha.white];
    [Captcha.white; Captcha.red; Captcha.red; Captcha.white];
    [Captcha.white; Captcha.red; Captcha.red; Captcha.white];
    [Captcha.white; Captcha.white; Captcha.white; Captcha.white] ].

(** A gap image whose coloured pixels lie in one row. *)
Definition bar : Captcha.image :=
  [ [Captcha.white; Captcha.white; Captcha.white; Captcha.white];
    [Captcha.white; Captcha.red; Captcha.red; Captcha.white];
    [Captcha.white; Captcha.white; Captcha.white; Captcha.white] ].

(* ===================================================================== *)
(** * Reading a track *)
(* ===================================================================== *)

(** The deltas sum, prefix by prefix, to the offsets. *)
Definition prefix_sums (offsets tracks : list Z) : Prop :=
  length tracks = length offsets /\
  forall i o, offsets !! i = Some o -> sumZ (take (S i) tracks) = o.

(* ===================================================================== *)
(** * Facts about the Python helpers *)
(* ===================================================================== *)

Section Helpers.

Lemma prefix_spec k s :
  String.prefix k s = true <-> exists post, s = k +:+ post.
Proof.
  revert s. induction k as [|a k IH]; intros s; simpl.
  - split; [intros _; by exists s | by destruct s].
  - destruct s as [|b s]; simpl.
    + split; [done | by intros [post ?]].
    + destruct (Ascii.ascii_dec a b) as [->|Hne].
      * rewrite IH. split; intros [post Hp]; exists post.
        -- by rewrite Hp.
        -- by injection Hp.
      * split; [done | intros [post Hp]; by injection Hp].
Qed.

Lemma str_in_spec k s : str_in k s = true <-> contains k s.
Proof.
  unfold contains. induction s as [|a s IH]; cbn [str_in].
  - rewrite orb_false_r, prefix_spec. split.
    + intros [post Hp]. by exists ""%string, post.
    + intros ([|b pre] & post & Hp); simpl in Hp; [by exists post | done].
  - rewrite orb_true_iff, prefix_spec, IH. split.
    + intros [[post Hp] | (pre & post & Hp)].
      * by exists ""%string, post.
      * exists (String a pre), post. simpl. by rewrite Hp.
    + intros ([|b pre] & post & Hp); simpl in Hp.
      * left. by exists post.
      * right. exists pre, post. by injection Hp.
Qed.

Lemma sumZ_app l1 l2 : sumZ (l1 ++ l2) = sumZ l1 + sumZ l2.
Proof. unfold sumZ. induction l1 as [|x l1 IH]; simpl; lia. Qed.

Lemma len_nonneg {A} (l : list A) : 0 <= len l.
Proof. unfold len. lia. Qed.

Lemma py_slice_to_firstn {A} (l : list A) n :
  0 <= n -> py_slice_to l n = firstn (Z.to_nat n) l.
Proof. intros Hn. unfold py_slice_to. by rewrite (proj2 (Z.leb_le 0 n) Hn). Qed.

Lemma py_slice_to_len {A} (l : list A) n :
  0 <= n -> len (py_slice_to l n) <= n.
Proof.
  intros Hn. rewrite py_slice_to_firstn by done.
  unfold len. rewrite length_take. lia.
Qed.

End Helpers.

(* ===================================================================== *)
(** * The comment harvester *)
(* ===================================================================== *)

Section HarvestFacts.
Import Harvest.

Variable aweme_id : string.
Variable crawl_interval : float.
Variable is_fetch_sub_comments : bool.
Variable callback : bool.
Variable max_comments : option Z.
Variable keywords : option (list string).

Abbreviation body :=
  (loop_body aweme_id crawl_interval is_fetch_sub_comments callback max_comments keywords).
Abbreviation loop :=
  (run_loop aweme_id crawl_interval is_fetch_sub_comments callback max_comments keywords).
Abbreviation cond := (while_cond max_comments).
Abbreviation count := collected_comments_count.

Lemma run_loop_cons rp script st :
  loop (rp :: script) st =
  if cond st then
    let '(evs, st', ctl) := body st rp in
    let it := {| it_before := st; it_reply := rp; it_events := evs;
                 it_after := st'; it_control := ctl |} in
    match ctl with
    | Continue => let '(its, out) := loop script st' in (it :: its, out)
    | Break => ([it], Finished)
    | Raise msg => ([it], Failed msg)
    end
  else ([], Finished).
Proof. reflexivity. Qed.

Lemma run_loop_stops script st : cond st = false -> loop script st = ([], Finished).
Proof. intros H. destruct script; simpl; by rewrite H. Qed.

(** Every logged iteration is a pass through the body, entered with the
    loop condition true. *)
Lemma run_loop_iteration script st it :
  it ∈ (loop script st).1 ->
  cond (it_before it) = true /\
  body (it_before it) (it_reply it) = (it_events it, it_after it, it_control it).
Proof.
  revert st. induction script as [|rp script IH]; intros st.
  - simpl. destruct (cond st); simpl; by intros ?%elem_of_nil.
  - rewrite run_loop_cons. destruct (cond st) eqn:Hc; [|by intros ?%elem_of_nil].
    destruct (body st rp) as [[evs st'] ctl] eqn:Hb.
    destruct ctl; cbn zeta.
    + destruct (loop script st') as [its out] eqn:Hl. simpl.
      intros [->|Hin]%elem_of_cons; [done|].
      apply (IH st'). by rewrite Hl.
    + simpl. intros [->|?%elem_of_nil]%elem_of_cons; done.
    + simpl. intros [->|?%elem_of_nil]%elem_of_cons; done.
Qed.

Lemma yielded_app evs1 evs2 : yielded (evs1 ++ evs2) = yielded evs1 ++ yielded evs2.
Proof. unfold yielded. apply omap_app. Qed.

Lemma total_yielded_app evs1 evs2 :
  total_yielded (evs1 ++ evs2) = total_yielded evs1 + total_yielded evs2.
Proof. unfold total_yielded. by rewrite yielded_app, map_app, sumZ_app. Qed.

(** Membership of a yield in an explicit list of events. *)
Ltac only_yield :=
  simpl; rewrite ?elem_of_cons, ?elem_of_nil; naive_solver.

(** The body yields at most once, and what it yields is the quota cut of
    the filtered page. *)
Lemma body_yield st rp evs st' ctl b :
  body st rp = (evs, st', ctl) ->
  EYield b ∈ evs ->
  b = comments_to_add max_comments (count st)
                      (filter_comments keywords (page_comments rp)).
Proof.
  unfold loop_body. destruct rp as [res|msg]; simpl.
  - destruct (default [] (res_comments res)) as [|c cs] eqn:Hcs.
    + intros [= <- <- <-]. only_yield.
    + destruct (quota_reached _ _); intros [= <- <- <-];
        destruct callback, is_fetch_sub_comments; only_yield.
  - intros [= <- <- <-]. only_yield.
Qed.

(** What a pass adds to the count covers what it yields. *)
Lemma body_count st rp evs st' ctl :
  body st rp = (evs, st', ctl) ->
  count st' = count st \/
  count st' = count st + len (comments_to_add max_comments (count st)
                                (filter_comments keywords (page_comments rp))).
Proof.
  unfold loop_body. destruct rp as [res|msg]; simpl.
  - destruct (default [] (res_comments res)) as [|c cs] eqn:Hcs.
    + intros [= <- <- <-]. by left.
    + destruct (quota_reached _ _); intros [= <- <- <-]; by right.
  - intros [= <- <- <-]. by left.
Qed.

Lemma body_total_yielded st rp evs st' ctl :
  body st rp = (evs, st', ctl) ->
  0 <= total_yielded evs <= count st' - count st.
Proof.
  unfold loop_body. destruct rp as [res|msg]; simpl.
  - destruct (default [] (res_comments res)) as [|c cs] eqn:Hcs.
    + intros [= <- <- <-]. simpl. cbv [total_yielded yielded]. simpl. lia.
    + pose proof (len_nonneg (comments_to_add max_comments (count st)
                     (filter_comments keywords (c :: cs)))).
      destruct (quota_reached _ _); intros [= <- <- <-];
        destruct callback, is_fetch_sub_comments;
        cbv [total_yielded yielded]; simpl; lia.
  - intros [= <- <- <-]. cbv [total_yielded yielded]. simpl. lia.
Qed.

Lemma comments_to_add_quota m c l :
  max_comments = Some m -> 0 < m -> c <= m ->
  len (comments_to_add max_comments c l) <= m - c.
Proof.
  intros -> Hm Hc. unfold comments_to_add.
  rewrite (proj2 (Z.ltb_lt 0 m) Hm). apply py_slice_to_len. lia.
Qed.

(** The count never goes down and, under a positive quota, never passes
    it; what is yielded from a state on fits in what is left of the quota. *)
Lemma run_loop_counts m script st :
  max_comments = Some m -> 0 < m -> count st <= m ->
  let its := (loop script st).1 in
  Sorted Z.le (count st :: counts its) /\
  Forall (fun c => c <= m) (counts its) /\
  count st + total_yielded (events its) <= m.
Proof.
  intros Hmax Hm. revert st.
  induction script as [|rp script IH]; intros st Hst; cbn zeta.
  - simpl. destruct (cond st); simpl;
      (split_and!; [repeat constructor | constructor | cbv [total_yielded]; simpl; lia]).
  - rewrite run_loop_cons. destruct (cond st) eqn:Hc; simpl;
      [|split_and!; [repeat constructor | constructor | cbv [total_yielded]; simpl; lia]].
    destruct (body st rp) as [[evs st'] ctl] eqn:Hb.
    pose proof (body_total_yielded _ _ _ _ _ Hb) as Hy.
    pose proof (comments_to_add_quota m (count st)
                  (filter_comments keywords (page_comments rp)) Hmax Hm Hst) as Hq.
    pose proof (len_nonneg (comments_to_add max_comments (count st)
                  (filter_comments keywords (page_comments rp)))) as Hn.
    assert (count st <= count st' <= m) as Hst'
      by (destruct (body_count _ _ _ _ _ Hb) as [->| ->]; lia).
    destruct ctl; cbn zeta.
    + destruct (IH st') as (HS & HF & HY); [lia|].
      destruct (loop script st') as [its out]. simpl in *.
      split_and!.
      * constructor; [done | constructor; lia].
      * constructor; [lia | done].
      * unfold events in *. simpl. rewrite total_yielded_app. lia.
    + simpl. split_and!.
      * repeat constructor. lia.
      * repeat constructor. lia.
      * unfold events. simpl. rewrite app_nil_r. lia.
    + simpl. split_and!.
      * repeat constructor. lia.
      * repeat constructor. lia.
      * unfold events. simpl. rewrite app_nil_r. lia.
Qed.

Lemma while_cond_skip st res :
  cond st = true ->
  cond (skip_page st res) = py_truthy (default 0 (res_has_more res)).
Proof.
  unfold while_cond. simpl. intros [_ ->]%andb_true_iff. apply andb_true_r.
Qed.

(** A page without comments costs one fetch and nothing else, and the loop
    goes on from the page's cursor and flag with the count as it was. *)
Lemma run_loop_empty_page res rest st :
  default [] (res_comments res) = [] ->
  cond st = true ->
  loop (Reply res :: rest) st =
  ({| it_before := st; it_reply := Reply res;
      it_events := [EFetch aweme_id (comments_cursor st)];
      it_after := skip_page st res; it_control := Continue |}
     :: (loop rest (skip_page st res)).1,
   (loop rest (skip_page st res)).2).
Proof.
  intros Hcs Hc. rewrite run_loop_cons, Hc. unfold loop_body. rewrite Hcs.
  cbn zeta. fold (skip_page st res). by destruct (loop rest (skip_page st res)).
Qed.

(** A pass starts with the fetch. *)
Lemma run_loop_fetches_first rp rest st :
  cond st = true ->
  exists it its,
    (loop (rp :: rest) st).1 = it :: its /\
    head (it_events it) = Some (EFetch aweme_id (comments_cursor st)).
Proof.
  intros Hc. rewrite run_loop_cons, Hc.
  destruct (body st rp) as [[evs st'] ctl] eqn:Hb.
  assert (head evs = Some (EFetch aweme_id (comments_cursor st))) as Hh.
  { revert Hb. unfold loop_body. destruct rp as [res|msg]; simpl.
    - destruct (default [] (res_comments res)).
      + by intros [= <- <- <-].
      + destruct (quota_reached _ _); by intros [= <- <- <-].
    - by intros [= <- <- <-]. }
  destruct ctl; cbn zeta.
  - destruct (loop rest st') as [its out]. simpl. eauto.
  - simpl. eauto.
  - simpl. eauto.
Qed.

End HarvestFacts.

Section HarvestClaims.
Import Harvest.

(** C1 (as the code runs it).  Item "A": a first page of 15 comments with
    more to come and cursor 15, a second page of 10 comments and no more;
    [max_comments = 20], no keywords.  The generator fetches at cursor 0,
    sleeps and yields the 15 comments, fetches at cursor 15, counts 5 more
    to 20 and leaves the loop at the [break], which comes before the
    [yield]: the batch of 5 is never yielded, 15 comments reach the caller. *)
Theorem item_A_last_batch_not_yielded :
  let run := get_aweme_all_comments "A" 1%float false false (Some 20) None item_A in
  yielded (events run.1) = [numbered "a" 15] /\
  map is_fetch (events run.1) = [true; false; false; true] /\
  total_yielded (events run.1) = 15 /\
  counts run.1 = [15; 20] /\
  final_count run.1 = 20 /\
  run.2 = Finished.
Proof. vm_compute. repeat split. Qed.

(** C2.  Under a positive [max_comments], whatever the fetches return:
    the collected count, pass after pass, never decreases and never
    exceeds [max_comments], and the comments yielded to the caller never
    add up to more than [max_comments]. *)
Theorem collected_count_monotone_and_bounded
    (aweme_id : string) (crawl_interval : float) (is_fetch_sub_comments callback : bool)
    (m : Z) (keywords : option (list string)) (script : list reply) :
  0 < m ->
  let its := (get_aweme_all_comments aweme_id crawl_interval is_fetch_sub_comments
                callback (Some m) keywords script).1 in
  Sorted Z.le (0 :: counts its) /\
  Forall (fun c => c <= m) (counts its) /\
  total_yielded (events its) <= m.
Proof.
  intros Hm.
  pose proof (run_loop_counts aweme_id crawl_interval is_fetch_sub_comments callback
                (Some m) keywords m script (initial_state) eq_refl Hm) as H.
  simpl in H. unfold get_aweme_all_comments. cbn zeta.
  destruct H as (HS & HF & HY); [lia|]. split_and!; [done | done | lia].
Qed.

Lemma collected_count_monotone_and_bounded_witness :
  0 < 20 /\
  let its := (get_aweme_all_comments "A" 1%float false true (Some 20)
                (Some ["nice"%string]) item_A).1 in
  Sorted Z.le (0 :: counts its) /\
  Forall (fun c => c <= 20) (counts its) /\
  total_yielded (events its) <= 20.
Proof.
  split; [lia|].
  apply (collected_count_monotone_and_bounded "A" 1%float false true 20
           (Some ["nice"%string]) item_A). lia.
Defined.

(** C4.  Every batch the generator yields comes from the page fetched in
    the same pass.  With a non-empty keyword list, each comment of the
    batch has a text that contains one of the keywords as a substring,
    byte for byte.  With no list or an empty one, the batch is the page's
    comments, cut to what is left of a positive quota and not cut
    otherwise. *)
Theorem yielded_batch_filtered
    (aweme_id : string) (crawl_interval : float) (is_fetch_sub_comments callback : bool)
    (max_comments : option Z) (keywords : option (list string)) (script : list reply)
    (it : iteration) (b : list comment) :
  it ∈ (get_aweme_all_comments aweme_id crawl_interval is_fetch_sub_comments
          callback max_comments keywords script).1 ->
  EYield b ∈ it_events it ->
  match keywords with
  | Some (k :: ks) =>
      Forall (fun c => exists kw, kw ∈ k :: ks /\ contains kw (comment_text c)) b
  | _ =>
      b = match max_comments with
          | Some m =>
              if 0 <? m
              then firstn (Z.to_nat (m - collected_comments_count (it_before it)))
                          (page_comments (it_reply it))
              else page_comments (it_reply it)
          | None => page_comments (it_reply it)
          end
  end.
Proof.
  intros Hit Hy. apply run_loop_iteration in Hit as [Hc Hb].
  pose proof (body_yield _ _ _ _ _ _ _ _ _ _ _ _ Hb Hy) as ->.
  assert (forall l : list comment,
            comments_to_add max_comments (collected_comments_count (it_before it)) l =
            match max_comments with
            | Some m =>
                if 0 <? m
                then firstn (Z.to_nat (m - collected_comments_count (it_before it))) l
                else l
            | None => l
            end) as Hcut.
  { intros l. unfold comments_to_add. destruct max_comments as [m|]; [|done].
    destruct (0 <? m) eqn:Hm; [|done].
    apply py_slice_to_firstn. apply Z.ltb_lt in Hm.
    unfold while_cond in Hc. apply andb_true_iff in Hc as [_ Hq].
    apply orb_true_iff in Hq as [Hq|Hq]; lia. }
  rewrite Hcut. destruct keywords as [[|k ks]|]; [done | | done].
  assert (Forall (fun c => exists kw, kw ∈ k :: ks /\ contains kw (comment_text c))
            (filter_comments (Some (k :: ks)) (page_comments (it_reply it)))) as HF.
  { unfold filter_comments. apply Forall_forall. intros c Hin.
    apply list_elem_of_In, filter_In in Hin as [_ Hhit].
    unfold keyword_hit in Hhit. apply existsb_exists in Hhit as (kw & Hkw & Hin).
    exists kw. split; [by apply list_elem_of_In | by apply str_in_spec]. }
  destruct max_comments as [m|]; [|done].
  destruct (0 <? m); [by apply Forall_take | done].
Qed.

Lemma yielded_batch_filtered_witness :
  let its := (get_aweme_all_comments "A" 1%float false false (Some 20)
                (Some ["nice"%string]) item_A).1 in
  exists it, its !! 0%nat = Some it /\
    Forall (fun c => exists kw, kw ∈ ["nice"%string] /\ contains kw (comment_text c))
           (numbered "a" 15).
Proof.
  cbn zeta.
  eexists. split; [reflexivity|].
  eapply (yielded_batch_filtered "A" 1%float false false (Some 20)
            (Some ["nice"%string]) item_A _ (numbered "a" 15)).
  - eapply list_elem_of_lookup_2 with (i := 0%nat). reflexivity.
  - apply list_elem_of_In. vm_compute. do 2 right. left. reflexivity.
Defined.

(** C7.  A page without comments does not end the harvest.  The pass that
    fetched it does the fetch and nothing else (no filtering, no yield) and
    the loop goes on with the page's cursor and flag and the count as it
    was: when the page's [has_more] is true the next pass fetches at the
    page's cursor, when it is false the loop ends normally. *)
Theorem empty_page_is_not_the_end
    (aweme_id : string) (crawl_interval : float) (is_fetch_sub_comments callback : bool)
    (max_comments : option Z) (keywords : option (list string))
    (res : comments_res) (rest : list reply) (st : loop_state) :
  default [] (res_comments res) = [] ->
  while_cond max_comments st = true ->
  let loop := run_loop aweme_id crawl_interval is_fetch_sub_comments callback
                       max_comments keywords in
  let r := loop (Reply res :: rest) st in
  let r' := loop rest (skip_page st res) in
  (exists it, r.1 = it :: r'.1 /\
     it_events it = [EFetch aweme_id (comments_cursor st)] /\
     it_control it = Continue /\
     it_after it = skip_page st res) /\
  r.2 = r'.2 /\
  (py_truthy (default 0 (res_has_more res)) = true ->
   forall rp rest', rest = rp :: rest' ->
   exists it' its', r'.1 = it' :: its' /\
     head (it_events it') = Some (EFetch aweme_id (default 0 (res_cursor res)))) /\
  (py_truthy (default 0 (res_has_more res)) = false -> r' = ([], Finished)).
Proof.
  intros Hcs Hc. cbn zeta.
  rewrite (run_loop_empty_page _ _ _ _ _ _ _ _ _ Hcs Hc). simpl.
  pose proof (while_cond_skip max_comments st res Hc) as Hskip.
  split_and!.
  - eexists. split_and!; reflexivity.
  - reflexivity.
  - intros Hmore rp rest' ->. rewrite Hmore in Hskip.
    apply (run_loop_fetches_first aweme_id crawl_interval is_fetch_sub_comments
             callback max_comments keywords rp rest' _ Hskip).
  - intros Hmore. rewrite Hmore in Hskip. by apply run_loop_stops.
Qed.

Lemma empty_page_is_not_the_end_witness :
  let loop := run_loop "A" 1%float false true (Some 20) None in
  let r := loop [empty_page 1 7; page 0 9 (numbered "c" 2)] (initial_state) in
  exists it it' its',
    r.1 = it :: it' :: its' /\
    it_events it = [EFetch "A" 0] /\
    head (it_events it') = Some (EFetch "A" 7).
Proof.
  cbn zeta.
  destruct (empty_page_is_not_the_end "A" 1%float false true (Some 20) None
              {| res_has_more := Some 1; res_cursor := Some 7; res_comments := Some [] |}
              [page 0 9 (numbered "c" 2)] initial_state eq_refl eq_refl)
    as ((it & Hr & Hev & _ & _) & _ & Hnext & _).
  destruct (Hnext eq_refl _ _ eq_refl) as (it' & its' & Hr' & Hh).
  exists it, it', its'. split_and!.
  - unfold empty_page. unfold page at 1. rewrite Hr. f_equal. exact Hr'.
  - exact Hev.
  - exact Hh.
Defined.

(** C10.  Pages without comments are fetched back to back.  Over any run
    of pages that carry no comments and announce more, the generator does
    one fetch per page, each at the cursor the page before returned, and
    nothing in between: the callback is not called for such a page and
    the [crawl_interval] sleep is not taken, also when a callback was
    passed.  After the run the loop goes on as it would from the last
    page's cursor with the count unchanged. *)
Theorem empty_pages_fetched_back_to_back
    (aweme_id : string) (crawl_interval : float) (is_fetch_sub_comments callback : bool)
    (max_comments : option Z) (keywords : option (list string))
    (pages : list comments_res) (rest : list reply) (st : loop_state) :
  Forall empty_with_more pages ->
  while_cond max_comments st = true ->
  let loop := run_loop aweme_id crawl_interval is_fetch_sub_comments callback
                       max_comments keywords in
  let r := loop (map Reply pages ++ rest) st in
  let r' := loop rest (fold_left skip_page pages st) in
  events r.1 = map (EFetch aweme_id) (fetch_cursors st pages) ++ events r'.1 /\
  r.2 = r'.2.
Proof.
  intros Hpages. revert st.
  induction Hpages as [|res pages [Hcs Hmore] _ IH]; intros st Hc; cbn zeta.
  - by simpl.
  - cbn [map app].
    rewrite (run_loop_empty_page _ _ _ _ _ _ _ _ _ Hcs Hc). simpl.
    assert (while_cond max_comments (skip_page st res) = true) as Hc'
      by (rewrite while_cond_skip by done; done).
    destruct (IH _ Hc') as [Hev Hout]. split; [|done].
    unfold events in *. simpl. rewrite Hev. reflexivity.
Qed.

Lemma empty_pages_fetched_back_to_back_witness :
  let loop := run_loop "A" 1%float false true (Some 20) None in
  let r := loop [empty_page 1 5; empty_page 1 9; empty_page 1 12;
                 page 0 20 (numbered "z" 2)] initial_state in
  firstn 3 (events r.1) = [EFetch "A" 0; EFetch "A" 5; EFetch "A" 9].
Proof.
  cbn zeta.
  pose proof (empty_pages_fetched_back_to_back "A" 1%float false true (Some 20) None
    [ {| res_has_more := Some 1; res_cursor := Some 5; res_comments := Some [] |};
      {| res_has_more := Some 1; res_cursor := Some 9; res_comments := Some [] |};
      {| res_has_more := Some 1; res_cursor := Some 12; res_comments := Some [] |} ]
    [page 0 20 (numbered "z" 2)] initial_state) as H.
  destruct H as [Hev _].
  - repeat constructor.
  - reflexivity.
  - cbn [map app] in Hev. unfold empty_page. unfold page at 1 2 3.
    rewrite Hev. reflexivity.
Defined.

End HarvestClaims.

(* ===================================================================== *)
(** * Trajectory synthesis *)
(* ===================================================================== *)

Section TrackFacts.
Import Tracks.

(** More fuel does not change what the loop returns. *)
Lemma track_loop_more_fuel fuel fuel' distance mid t current v track r :
  (fuel <= fuel')%nat ->
  track_loop fuel distance mid t current v track = Some r ->
  track_loop fuel' distance mid t current v track = Some r.
Proof.
  revert fuel' current v track.
  induction fuel as [|fuel IH]; intros fuel' current v track Hle; [done|].
  destruct fuel' as [|fuel']; [lia|]. cbn [track_loop].
  destruct (float_lt_int current distance); [|done].
  destruct (py_round _); [done|]. apply IH. lia.
Qed.

Lemma get_track_simple_more_fuel fuel fuel' distance r :
  (fuel <= fuel')%nat ->
  get_track_simple fuel distance = Some r ->
  get_track_simple fuel' distance = Some r.
Proof.
  unfold get_track_simple. destruct (int_truediv _ _); [done|].
  apply track_loop_more_fuel.
Qed.

Lemma track_sum_more_fuel fuel fuel' distance z :
  (fuel <= fuel')%nat ->
  track_sum (get_track_simple fuel distance) = Some z ->
  track_sum (get_track_simple fuel' distance) = Some z.
Proof.
  intros Hle. destruct (get_track_simple fuel distance) as [r|] eqn:Hr; [|done].
  by rewrite (get_track_simple_more_fuel _ _ _ _ Hle Hr).
Qed.

Lemma arange_two_seconds : arange 0.0%float 2 0.1%float = ok eased_samples.
Proof. vm_compute. reflexivity. Qed.

Lemma _get_tracks_two_seconds globals distance ease_func :
  _get_tracks globals distance 2 ease_func
  = tracks_loop globals distance 2 ease_func eased_samples [0] [0].
Proof. reflexivity. Qed.

Section Eased.
Variable globals : string -> option (float -> float).
Variable ease : float -> float.
Variable ease_func : string.
Variable distance seconds : Z.
Hypothesis ease_found : globals ease_func = Some ease.

Abbreviation offset_at := (Tracks.offset_at ease distance seconds).

(** The deltas sum to the last offset, all along the loop. *)
Lemma tracks_loop_sum ts tracks offsets offsets' tracks' :
  sumZ tracks = List.last offsets 0 ->
  tracks_loop globals distance seconds ease_func ts tracks offsets = ok (offsets', tracks') ->
  sumZ tracks' = List.last offsets' 0.
Proof.
  revert tracks offsets. induction ts as [|t ts IH]; intros tracks offsets Hsum; simpl.
  - by intros [= <- <-].
  - rewrite ease_found.
    destruct (Tracks.offset_at ease distance seconds t) as [e|offset]; simpl; [done|].
    apply IH. rewrite sumZ_app, last_last. simpl. lia.
Qed.

(** The last offset is the one of the last sample. *)
Lemma tracks_loop_last ts t tracks offsets offsets' tracks' :
  tracks_loop globals distance seconds ease_func (ts ++ [t]) tracks offsets
    = ok (offsets', tracks') ->
  offset_at t = ok (List.last offsets' 0).
Proof.
  revert tracks offsets. induction ts as [|t0 ts IH]; intros tracks offsets; simpl.
  - rewrite ease_found.
    destruct (Tracks.offset_at ease distance seconds t) as [e|offset]; simpl; [done|].
    intros [= <- <-]. by rewrite last_last.
  - rewrite ease_found.
    destruct (Tracks.offset_at ease distance seconds t0) as [e|offset]; simpl; [done|].
    apply IH.
Qed.

(** The loop returns when every sample has an offset. *)
Lemma tracks_loop_returns ts tracks offsets :
  Forall (fun t => is_ok (offset_at t)) ts ->
  is_ok (tracks_loop globals distance seconds ease_func ts tracks offsets).
Proof.
  intros Hts. revert tracks offsets.
  induction Hts as [|t ts [offset Ht] _ IH]; intros tracks offsets; simpl.
  - by eexists.
  - rewrite ease_found, Ht. simpl. apply IH.
Qed.

End Eased.
End TrackFacts.

Section TrackClaims.
Import Tracks.

(** C3 (as the code runs it).  For distance 10 the simple policy returns
    eleven deltas that sum to 11, not to 10. *)
Lemma simple_track_sum_is_not_distance :
  get_track_simple 200 10 = Some (ok [0; 0; 1; 1; 1; 1; 1; 1; 2; 2; 1]) /\
  sumZ [0; 0; 1; 1; 1; 1; 1; 1; 2; 2; 1] <> 10.
Proof. split; [vm_compute; reflexivity | by vm_compute]. Qed.

(** C3 (amended).  The simple policy stops once the unrounded running
    total has reached [distance] and emits the rounded steps without a
    correcting last step: for distances 10, 100, 300 and 1000 it returns
    deltas that sum to 11, 103, 303 and 1003.  The eased policy over 2
    seconds, whatever curve the name [ease_out_expo] stands for, returns
    deltas that sum to the offset of its last sample,
    [round(ease(1.9000000000000001 / 2) * distance)]. *)
Theorem track_sums :
  (forall fuel, (200 <= fuel)%nat ->
     track_sum (get_track_simple fuel 10) = Some 11 /\
     track_sum (get_track_simple fuel 100) = Some 103 /\
     track_sum (get_track_simple fuel 300) = Some 303 /\
     track_sum (get_track_simple fuel 1000) = Some 1003) /\
  (forall (globals : string -> option (float -> float)) (ease : float -> float)
          (distance : Z),
     globals "ease_out_expo"%string = Some ease ->
     Forall (fun t => is_ok (offset_at ease distance 2 t)) eased_samples ->
     exists offsets tracks,
       _get_tracks globals distance 2 "ease_out_expo" = ok (offsets, tracks) /\
       offset_at ease distance 2 last_sample = ok (sumZ tracks)).
Proof.
  split.
  - intros fuel Hfuel.
    split_and!; apply (track_sum_more_fuel 200 fuel _ _ Hfuel); vm_compute; reflexivity.
  - intros globals ease distance Hease Hok.
    rewrite (_get_tracks_two_seconds globals distance "ease_out_expo").
    destruct (tracks_loop_returns globals ease "ease_out_expo" distance 2 Hease
                eased_samples [0] [0] Hok) as [[offsets tracks] Hrun].
    exists offsets, tracks. split; [done|].
    rewrite (tracks_loop_sum globals ease "ease_out_expo" distance 2 Hease
               eased_samples [0] [0] offsets tracks eq_refl Hrun).
    change eased_samples with (removelast eased_samples ++ [last_sample]) in Hrun.
    apply (tracks_loop_last globals ease "ease_out_expo" distance 2 Hease _ _ _ _ _ _ Hrun).
Qed.

Lemma track_sums_witness :
  track_sum (get_track_simple 200 300) = Some 303 /\
  exists offsets tracks,
    _get_tracks (only_curve linear) 1000 2 "ease_out_expo" = ok (offsets, tracks) /\
    sumZ tracks = 950.
Proof.
  destruct track_sums as [Hsimple Heased]. split.
  - apply (Hsimple 200%nat). lia.
  - destruct (Heased (only_curve linear) linear 1000 eq_refl)
      as (offsets & tracks & Hrun & Hlast).
    + repeat (constructor; [eexists; vm_compute; reflexivity|]). constructor.
    + exists offsets, tracks. split; [exact Hrun|].
      assert (offset_at linear 1000 2 last_sample = ok 950) as H950
        by (vm_compute; reflexivity).
      rewrite H950 in Hlast. by injection Hlast.
Defined.

End TrackClaims.

(* ===================================================================== *)
(** * Request signing *)
(* ===================================================================== *)

Section SigningFacts.
Import Signing.

Lemma append_assoc (a b c : string) : (a +:+ b) +:+ c = a +:+ b +:+ c.
Proof.
  induction a as [|x a IH]; [done|].
  change (String x ((a +:+ b) +:+ c) = String x (a +:+ b +:+ c)). by rewrite IH.
Qed.

Lemma append_nil_r (a : string) : a +:+ "" = a.
Proof.
  induction a as [|x a IH]; [done|].
  change (String x (a +:+ "") = String x a). by rewrite IH.
Qed.



Lemma dict_get_set_eq k v d : dict_get k (dict_set k v d) = Some v.
Proof.
  induction d as [|[k' v'] d IH]; simpl.
  - by rewrite String.eqb_refl.
  - destruct (String.eqb k k') eqn:Hk; simpl; by rewrite ?String.eqb_refl, ?Hk.
Qed.

Lemma dict_get_set_ne k k' v d :
  k <> k' -> dict_get k' (dict_set k v d) = dict_get k' d.
Proof.
  intros Hne. induction d as [|[k0 v0] d IH]; simpl.
  - by rewrite (proj2 (String.eqb_neq k' k)).
  - destruct (String.eqb_spec k k0) as [<-|Hk]; simpl.
    + by rewrite (proj2 (String.eqb_neq k' k)).
    + by rewrite IH.
Qed.

Lemma dict_set_same k v d : dict_get k d = Some v -> dict_set k v d = d.
Proof.
  induction d as [|[k' v'] d IH]; [done|]. simpl.
  destruct (String.eqb_spec k k') as [<-|Hk].
  - by intros [= ->].
  - intros H. by rewrite IH.
Qed.



Lemma dict_get_None k d : dict_get k d = None <-> k ∉ keys d.
Proof.
  induction d as [|[k' v'] d IH]; simpl.
  - split; [intros _; apply not_elem_of_nil | done].
  - rewrite not_elem_of_cons. destruct (String.eqb_spec k k') as [<-|Hk].
    + split; [done | by intros [? _]].
    + rewrite IH. tauto.
Qed.

Lemma dict_get_Some_elem k v d : dict_get k d = Some v -> (k, v) ∈ d.
Proof.
  induction d as [|[k' v'] d IH]; [done|]. simpl.
  destruct (String.eqb_spec k k') as [<-|Hk].
  - intros [= ->]. apply elem_of_cons. by left.
  - intros H. apply elem_of_cons. right. by apply IH.
Qed.

Lemma dict_get_elem k v d : NoDup (keys d) -> (k, v) ∈ d -> dict_get k d = Some v.
Proof.
  induction d as [|[k' v'] d IH]; simpl.
  - by intros _ ?%elem_of_nil.
  - intros [Hk' Hd]%NoDup_cons [[= -> ->]|Hin]%elem_of_cons.
    + by rewrite String.eqb_refl.
    + destruct (String.eqb_spec k k') as [->|Hk]; [|by apply IH].
      exfalso. apply Hk'. unfold keys. apply list_elem_of_fmap.
      by exists (k', v).
Qed.

Lemma keys_set k v d :
  keys (dict_set k v d) = if decide (k ∈ keys d) then keys d else keys d ++ [k].
Proof.
  induction d as [|[k' v'] d IH]; cbn [dict_set].
  - destruct (decide (k ∈ keys [])) as [H|H]; [by apply elem_of_nil in H | done].
  - destruct (String.eqb_spec k k') as [<-|Hk].
    + destruct (decide (k ∈ keys ((k, v') :: d))) as [H|H]; [done|].
      exfalso. apply H. by left.
    + change (keys ((k', v') :: dict_set k v d)) with (k' :: keys (dict_set k v d)).
      rewrite IH. change (keys ((k', v') :: d)) with (k' :: keys d).
      destruct (decide (k ∈ keys d)) as [H|H],
               (decide (k ∈ k' :: keys d)) as [H'|H']; try done.
      * exfalso. apply H'. by right.
      * by apply elem_of_cons in H' as [?|?].
Qed.

Lemma dict_update_cons d k v src :
  dict_update d ((k, v) :: src) = dict_update (dict_set k v d) src.
Proof. reflexivity. Qed.

(** After [d.update(src)] a key of [src] has the value [src] gives it, and
    every other key the value it had. *)
Lemma dict_get_update k d src :
  NoDup (keys src) ->
  dict_get k (dict_update d src) =
  match dict_get k src with
  | Some v => Some v
  | None => dict_get k d
  end.
Proof.
  revert d. induction src as [|[k0 v0] src IH]; intros d; [done|].
  simpl keys. intros [Hk0 Hsrc]%NoDup_cons.
  rewrite dict_update_cons, IH by done. cbn [dict_get].
  destruct (String.eqb_spec k k0) as [->|Hk].
  - apply dict_get_None in Hk0. rewrite Hk0. apply dict_get_set_eq.
  - destruct (dict_get k src); [done|]. by apply dict_get_set_ne.
Qed.

Lemma filter_agree {A} (P Q : A -> Prop) `{!forall x, Decision (P x)}
    `{!forall x, Decision (Q x)} (l : list A) :
  (forall x, x ∈ l -> P x <-> Q x) -> filter P l = filter Q l.
Proof.
  induction l as [|a l IH]; [done|]. intros Hpq.
  rewrite !filter_cons, IH by (intros x Hx; apply Hpq, elem_of_cons; by right).
  pose proof (Hpq a (proj2 (elem_of_cons _ _ _) (or_introl eq_refl))) as Ha.
  destruct (decide (P a)), (decide (Q a)); tauto || done.
Qed.

(** [d.update(src)] keeps the keys of [d] where they are and puts the new
    keys of [src] after them, in the order of [src]. *)
Lemma keys_update d src :
  NoDup (keys src) ->
  keys (dict_update d src) = keys d ++ filter (fun k => k ∉ keys d) (keys src).
Proof.
  revert d. induction src as [|[k0 v0] src IH]; intros d.
  - intros _. simpl. by rewrite app_nil_r.
  - change (keys ((k0, v0) :: src)) with (k0 :: keys src).
    intros [Hk0 Hsrc]%NoDup_cons.
    rewrite dict_update_cons, IH by done. rewrite keys_set, filter_cons.
    destruct (decide (k0 ∈ keys d)) as [Hin|Hin].
    + by rewrite decide_False by tauto.
    + rewrite decide_True by done. rewrite <- app_assoc. simpl. do 2 f_equal.
      apply filter_agree. intros x Hx. rewrite not_elem_of_app, not_elem_of_cons.
      split; [tauto|]. intros Hd. split_and!; [done | | apply not_elem_of_nil].
      intros ->. done.
Qed.

Lemma dict_set_nonempty k v d : dict_set k v d <> [].
Proof. destruct d as [|[k' v'] d]; simpl; [done|]. by destruct (String.eqb k k'). Qed.

Lemma dict_update_nonempty d src : d <> [] -> dict_update d src <> [].
Proof.
  revert d. induction src as [|[k v] src IH]; intros d Hd; [done|].
  rewrite dict_update_cons. apply IH, dict_set_nonempty.
Qed.

(** Updating with entries the dict already holds changes nothing. *)
Lemma dict_update_absorb d src :
  (forall k v, (k, v) ∈ src -> dict_get k d = Some v) -> dict_update d src = d.
Proof.
  induction src as [|[k v] src IH]; [done|]. intros H.
  rewrite dict_update_cons, dict_set_same.
  - apply IH. intros k' v' Hin. apply H, elem_of_cons. by right.
  - apply H, elem_of_cons. by left.
Qed.

Lemma common_params_NoDup : NoDup (keys common_params).
Proof. apply (bool_decide_unpack _). by vm_compute. Qed.

Lemma x_bogus_not_common : dict_get x_bogus_key common_params = None.
Proof. reflexivity. Qed.

(** The query spelled out: the first entry as [key=value], every later
    entry as [&key=value]. *)
Lemma query_of_cons k v rest :
  query_of ((k, v) :: rest) =
  k +:+ "=" +:+ v +:+
  fold_right (fun kv acc => "&" +:+ kv.1 +:+ "=" +:+ kv.2 +:+ acc) "" rest.
Proof.
  revert k v. induction rest as [|[k' v'] rest IH]; intros k v.
  - unfold query_of, pair_str. simpl. by rewrite append_nil_r.
  - change (query_of ((k, v) :: (k', v') :: rest))
      with ((k +:+ "=" +:+ v) +:+ "&" +:+ query_of ((k', v') :: rest)).
    rewrite IH. cbn [fold_right fst snd]. by rewrite !append_assoc.
Qed.


Section Call.
Variable js_sign : string -> string -> option string.
Variable self_headers : gmap string string.

(** The call on a non-empty dict that reads the storage, compiles the
    script, finds its User-Agent and gets a signature. *)
Lemma process_req_params_signed p headers ua sig :
  p <> [] ->
  headers_or self_headers headers !! user_agent_key = Some ua ->
  js_sign (query_of (dict_update p common_params)) ua = Some sig ->
  process_req_params js_sign self_headers (ok tt) (ok tt) (Some p) headers =
  {| params_after := Some (dict_set x_bogus_key sig (dict_update p common_params));
     sign_calls := [(query_of (dict_update p common_params), ua)];
     raised := None |}.
Proof.
  intros Hp Hua Hsig. unfold process_req_params.
  destruct p as [|kv p]; [done|]. by rewrite Hua, Hsig.
Qed.

(** The call on a non-empty dict that gets as far as the evaluator. *)
Lemma process_req_params_called p headers ua :
  p <> [] ->
  headers_or self_headers headers !! user_agent_key = Some ua ->
  process_req_params js_sign self_headers (ok tt) (ok tt) (Some p) headers =
  let merged := dict_update p common_params in
  match js_sign (query_of merged) ua with
  | None => {| params_after := Some merged; sign_calls := [(query_of merged, ua)];
               raised := Some (JsError "sign") |}
  | Some sig => {| params_after := Some (dict_set x_bogus_key sig merged);
                   sign_calls := [(query_of merged, ua)]; raised := None |}
  end.
Proof.
  intros Hp Hua. unfold process_req_params.
  destruct p as [|kv p]; [done|]. by rewrite Hua.
Qed.

(** A call that raised nothing on a non-empty dict went all the way. *)
Lemma process_req_params_passed local_storage douyin_js p headers :
  p <> [] ->
  raised (process_req_params js_sign self_headers local_storage douyin_js (Some p) headers)
    = None ->
  local_storage = ok tt /\ douyin_js = ok tt /\
  exists ua sig,
    headers_or self_headers headers !! user_agent_key = Some ua /\
    js_sign (query_of (dict_update p common_params)) ua = Some sig.
Proof.
  intros Hp. unfold process_req_params. destruct p as [|kv p]; [done|].
  destruct local_storage as [e|[]]; [done|].
  destruct douyin_js as [e|[]]; [done|].
  destruct (headers_or self_headers headers !! user_agent_key) as [ua|]; [|done].
  destruct (js_sign (query_of (dict_update (kv :: p) common_params)) ua) as [sig|] eqn:Hsig;
    [|done].
  intros _. split_and!; [done | done |]. by exists ua, sig.
Qed.

(** The signed dict holds every constant already: merging them again
    changes nothing. *)
Lemma merged_signed_absorbs p sig :
  dict_update (dict_set x_bogus_key sig (dict_update p common_params)) common_params
  = dict_set x_bogus_key sig (dict_update p common_params).
Proof.
  apply dict_update_absorb. intros k v Hin.
  assert (k <> x_bogus_key) as Hk.
  { intros ->. apply (dict_get_elem _ _ _ common_params_NoDup) in Hin.
    by rewrite x_bogus_not_common in Hin. }
  rewrite dict_get_set_ne by done.
  rewrite dict_get_update by apply common_params_NoDup.
  by rewrite (dict_get_elem _ _ _ common_params_NoDup Hin).
Qed.

End Call.
End SigningFacts.

Section SigningClaims.
Import Signing.

(** C5.  On an empty or absent dict the call returns at once, whatever
    the page and the script are: the dict is as it was, the evaluator is
    not called, nothing is raised.  On a non-empty dict, once the storage
    is read and the script compiled, with a User-Agent header and an
    evaluator that answers: the constants are merged in (each has its fixed
    value afterwards, every other key keeps its value, the caller's keys
    stay in place and the new constants follow in their own order); the
    query is the first merged entry as [key=value] followed by every later
    entry as [&key=value], in the order of the dict; the evaluator is
    called once, with that query and the User-Agent; and its answer is
    stored under [X-Bogus] in the same dict, the other entries untouched. *)
Theorem process_req_params_contract
    (js_sign : string -> string -> option string)
    (self_headers : gmap string string) (local_storage douyin_js : result unit)
    (headers : option (gmap string string)) :
  process_req_params js_sign self_headers local_storage douyin_js (Some []) headers =
    {| params_after := Some []; sign_calls := []; raised := None |} /\
  process_req_params js_sign self_headers local_storage douyin_js None headers =
    {| params_after := None; sign_calls := []; raised := None |} /\
  forall (p : dict) (ua sig : string),
    p <> [] ->
    local_storage = ok tt ->
    douyin_js = ok tt ->
    headers_or self_headers headers !! user_agent_key = Some ua ->
    let merged := dict_update p common_params in
    js_sign (query_of merged) ua = Some sig ->
    let r := process_req_params js_sign self_headers local_storage douyin_js
               (Some p) headers in
    (forall k v, (k, v) ∈ common_params -> dict_get k merged = Some v) /\
    (forall k, dict_get k common_params = None -> dict_get k merged = dict_get k p) /\
    keys merged = keys p ++ filter (fun k => k ∉ keys p) (keys common_params) /\
    (exists k v rest,
       merged = (k, v) :: rest /\
       sign_calls r =
       [(k +:+ "=" +:+ v +:+
         fold_right (fun kv acc => "&" +:+ kv.1 +:+ "=" +:+ kv.2 +:+ acc) "" rest,
         ua)]) /\
    raised r = None /\
    exists p',
      params_after r = Some p' /\
      dict_get x_bogus_key p' = Some sig /\
      (forall k, k <> x_bogus_key -> dict_get k p' = dict_get k merged) /\
      keys p' = if decide (x_bogus_key ∈ keys p) then keys merged
                else keys merged ++ [x_bogus_key].
Proof.
  split_and!; [done | done |].
  intros p ua sig Hp -> -> Hua merged Hsig r.
  subst r. rewrite (process_req_params_signed _ _ _ _ _ _ Hp Hua Hsig).
  fold merged. cbn [sign_calls raised params_after].
  assert (forall k, dict_get k common_params = None ->
                    dict_get k merged = dict_get k p) as Hother.
  { intros k Hk. unfold merged.
    by rewrite dict_get_update, Hk by apply common_params_NoDup. }
  split_and!; try done.
  - intros k v Hin. unfold merged.
    rewrite dict_get_update by apply common_params_NoDup.
    by rewrite (dict_get_elem _ _ _ common_params_NoDup Hin).
  - apply keys_update, common_params_NoDup.
  - destruct merged as [|[k v] rest] eqn:Hm.
    + by apply (dict_update_nonempty p common_params) in Hp.
    + exists k, v, rest. by rewrite query_of_cons.
  - eexists. split_and!; [reflexivity | apply dict_get_set_eq | |].
    + intros k Hk. by apply dict_get_set_ne.
    + rewrite keys_set.
      assert (x_bogus_key ∈ keys merged <-> x_bogus_key ∈ keys p) as Hiff.
      { pose proof (dict_get_None x_bogus_key merged) as H1.
        pose proof (dict_get_None x_bogus_key p) as H2.
        rewrite (Hother _ x_bogus_not_common) in H1.
        destruct (decide (x_bogus_key ∈ keys merged)),
                 (decide (x_bogus_key ∈ keys p)); tauto. }
      destruct (decide (x_bogus_key ∈ keys merged)),
               (decide (x_bogus_key ∈ keys p)); tauto || done.
Qed.

Lemma process_req_params_contract_witness :
  let r := process_req_params echo_sign sample_headers ready ready
             (Some sample_params) None in
  sign_calls r =
  [("aweme_id=7306880126984211724&cursor=0&count=20&item_type=0&device_platform=webapp&aid=6383&channel=channel_pc_web&cookie_enabled=true&browser_language=zh-CN&browser_platform=Win32&browser_name=Firefox&browser_version=110.0&browser_online=true&engine_name=Gecko&os_name=Windows&os_version=10&engine_version=109.0&platform=PC&screen_width=1920&screen_height=1200"%string,
    "Mozilla/5.0"%string)] /\
  raised r = None /\
  exists p', params_after r = Some p' /\
    dict_get "aid" p' = Some "6383"%string /\
    dict_get "cursor" p' = Some "0"%string /\
    is_Some (dict_get x_bogus_key p').
Proof.
  cbn zeta.
  destruct (process_req_params_contract echo_sign sample_headers ready ready None)
    as (_ & _ & Hsigned).
  destruct (Hsigned sample_params "Mozilla/5.0"%string
              (query_of (dict_update sample_params common_params)))
    as (_ & _ & _ & (k & v & rest & Hm & Hcalls) & Hraised & p' & Hp' & Hsig & _ & _).
  - done.
  - reflexivity.
  - reflexivity.
  - reflexivity.
  - reflexivity.
  - split_and!.
    + rewrite Hcalls. injection Hm as <- <- <-. reflexivity.
    + exact Hraised.
    + exists p'. split; [exact Hp'|].
      assert (Some p' = Some (dict_set x_bogus_key
                (query_of (dict_update sample_params common_params))
                (dict_update sample_params common_params))) as [= ->]
        by (rewrite <- Hp'; reflexivity).
      split_and!; [reflexivity | reflexivity | by eexists].
Defined.




End SigningClaims.

(* ===================================================================== *)
(** * The gap locator *)
(* ===================================================================== *)

Section CaptchaFacts.
Import Captcha.

Lemma fails_bind {A B} (m : result A) (f : A -> result B) :
  fails m -> fails (m ≫= f).
Proof. intros [e ->]. by exists e. Qed.

Lemma fails_bind_all {A B} (m : result A) (f : A -> result B) :
  (forall a, fails (f a)) -> fails (m ≫= f).
Proof. intros Hf. destruct m as [e|a]; [by exists e | apply Hf]. Qed.

Lemma bind_ok {A B} (a : A) (f : A -> result B) : ok a ≫= f = f a.
Proof. reflexivity. Qed.

Lemma ok_bind {A B} (m : result A) (f : A -> result B) b :
  m ≫= f = ok b -> exists a, m = ok a /\ f a = ok b.
Proof. destruct m as [e|a]; [done|]. intros H. by exists a. Qed.

End CaptchaFacts.

Section CaptchaClaims.
Import Captcha.

(** C8 (as the code runs it).  A gap image that cannot be decoded: the
    background decodes and no bounding box is degenerate (none is
    computed), yet [discern] does not return a coordinate, it raises. *)
Lemma discern_raises_without_gap_image :
  ~ background_undecodable sample_cv2 slide_no_gap /\
  ~ bbox_degenerate sample_cv2 slide_no_gap /\
  discern sample_cv2 slide_no_gap = raise (AttributeError "shape").
Proof.
  split_and!.
  - by intros [=].
  - by intros (img & [=] & _).
  - reflexivity.
Qed.

(** C8 (amended).  [discern] has no failure type and no check of its
    own; it raises what the steps it calls raise.  It raises an
    [AttributeError] when the gap image cannot be decoded, and it raises
    when the cropped gap has no pixels, OpenCV refusing such an array.
    When the background cannot be decoded, the [None] goes to the edge
    detector unchecked, and [discern] raises where OpenCV makes no image
    out of [None] and refuses [None] in the colour conversion.  When it
    returns, every step of the pipeline has returned and the value is the
    x coordinate of the best match of the gap's edge map in the
    background's edge map; and it returns whenever every step does. *)
Theorem discern_outcomes (cv2 : opencv) (self : slide) :
  (imread cv2 (gap self) None = None ->
   discern cv2 self = raise (AttributeError "shape")) /\
  (bbox_degenerate cv2 self -> rejects_empty cv2 -> fails (discern cv2 self)) /\
  (background_undecodable cv2 self -> edges_of_none cv2 -> rejects_none cv2 ->
   fails (discern cv2 self)) /\
  (forall x written,
     discern cv2 self = ok (x, written) ->
     exists img gray slide back_edges slide_pic back_pic res,
       imread cv2 (gap self) None = Some img /\
       cvtColor cv2 (Some (crop img (scan img))) COLOR_RGB2GRAY = ok gray /\
       Canny cv2 gray 100 200 = ok slide /\
       Canny cv2 (imread cv2 (bg self) (Some COLOR_RGB2GRAY)) 100 200 = ok back_edges /\
       cvtColor cv2 slide COLOR_GRAY2RGB = ok (Some slide_pic) /\
       cvtColor cv2 back_edges COLOR_GRAY2RGB = ok back_pic /\
       matchTemplate cv2 back_pic (Some slide_pic) TM_CCOEFF_NORMED = ok res /\
       x = (max_loc (minMaxLoc cv2 res)).1 /\
       written.1 = out self) /\
  (forall img gray slide back_edges slide_pic back_pic res drawn saved,
     imread cv2 (gap self) None = Some img ->
     cvtColor cv2 (Some (crop img (scan img))) COLOR_RGB2GRAY = ok gray ->
     Canny cv2 gray 100 200 = ok slide ->
     Canny cv2 (imread cv2 (bg self) (Some COLOR_RGB2GRAY)) 100 200 = ok back_edges ->
     cvtColor cv2 slide COLOR_GRAY2RGB = ok (Some slide_pic) ->
     cvtColor cv2 back_edges COLOR_GRAY2RGB = ok back_pic ->
     matchTemplate cv2 back_pic (Some slide_pic) TM_CCOEFF_NORMED = ok res ->
     let tl := max_loc (minMaxLoc cv2 res) in
     rectangle cv2 back_pic tl (tl.1 + cols_of slide_pic, tl.2 + rows_of slide_pic)
               (0, 0, 255) 2 = ok drawn ->
     imwrite cv2 (out self) drawn = ok saved ->
     discern cv2 self = ok (tl.1, (out self, drawn))).
Proof.
  split_and!.
  - intros Hgap. unfold discern, clear_white. by rewrite Hgap.
  - intros (img & Hgap & Hempty) Hrej.
    unfold discern, clear_white. rewrite Hgap.
    rewrite bind_ok. apply fails_bind. by apply Hrej.
  - intros Hbg Hedges Hnone. unfold discern.
    do 3 (apply fails_bind_all; intros ?).
    unfold background_undecodable in Hbg. rewrite Hbg.
    unfold image_edge_detection.
    destruct (Canny cv2 None 100 200) as [e|edges] eqn:Hcanny; [by exists e|].
    apply Hedges in Hcanny as ->. rewrite !bind_ok.
    apply fails_bind_all; intros ?. apply fails_bind. apply Hnone.
  - intros x written. unfold discern.
    intros (img1 & Hclear & H)%ok_bind.
    apply ok_bind in H as (gray & Hgray & H).
    apply ok_bind in H as (slide & Hslide & H).
    apply ok_bind in H as (back_edges & Hback & H).
    apply ok_bind in H as (slide_pic & Hsp & H).
    apply ok_bind in H as (back_pic & Hbp & H).
    unfold template_match in H.
    destruct slide_pic as [slide_pic|]; [|done].
    apply ok_bind in H as (res & Hres & H).
    apply ok_bind in H as (drawn & Hdrawn & H).
    apply ok_bind in H as (saved & Hsaved & H).
    injection H as <- <-.
    unfold clear_white in Hclear.
    destruct (imread cv2 (gap self) None) as [img|] eqn:Hgap; [|done].
    injection Hclear as <-.
    unfold image_edge_detection in Hslide, Hback.
    apply ok_bind in Hslide as (slide' & Hslide & [= <-]).
    apply ok_bind in Hback as (back' & Hback & [= <-]).
    by exists img, gray, slide', back', slide_pic, back_pic, res.
  - intros img gray slide back_edges slide_pic back_pic res drawn saved
      Hgap Hgray Hslide Hback Hsp Hbp Hres tl Hdrawn Hsaved.
    unfold discern, clear_white, template_match, image_edge_detection.
    rewrite Hgap.
    rewrite bind_ok, Hgray.
    rewrite bind_ok, Hslide.
    rewrite !bind_ok, Hback.
    rewrite !bind_ok, Hsp.
    rewrite bind_ok, Hbp.
    rewrite bind_ok, Hres.
    rewrite bind_ok. fold tl. rewrite Hdrawn.
    rewrite bind_ok, Hsaved. reflexivity.
Qed.

Lemma discern_outcomes_witness :
  fails (discern sample_cv2 slide_blank) /\
  fails (discern sample_cv2 slide_no_bg) /\
  discern sample_cv2 slide_ok = ok (1, ("temp_image/out.jpg"%string, Some piece)).
Proof.
  split_and!.
  - destruct (discern_outcomes sample_cv2 slide_blank) as (_ & Hdeg & _).
    apply Hdeg.
    + exists blank. split; reflexivity.
    + intros img code Himg. simpl. rewrite Himg. by eexists.
  - destruct (discern_outcomes sample_cv2 slide_no_bg) as (_ & _ & Hbg & _).
    apply Hbg.
    + reflexivity.
    + by intros low high edges [= <-].
    + intros code. by eexists.
  - destruct (discern_outcomes sample_cv2 slide_ok) as (_ & _ & _ & _ & Hok).
    apply (Hok piece (Some [[red]]) (Some [[red]]) (Some piece) [[red]] (Some piece)
             tt (Some piece) true); reflexivity.
Defined.

End CaptchaClaims.

(* ===================================================================== *)
(** * The batch orchestrator *)
(* ===================================================================== *)

Section OrchestratorFacts.
Import Orchestrator.

Lemma in_flight_cons t ts : in_flight (t :: ts) = (holds t + in_flight ts)%nat.
Proof. unfold in_flight, holds. simpl. by destruct (bool_decide (t = InFlight)). Qed.

(** Replacing one task moves the count by what the old and the new task
    hold. *)
Lemma in_flight_insert ts i old new :
  ts !! i = Some old ->
  (in_flight (<[i := new]> ts) + holds old = in_flight ts + holds new)%nat.
Proof.
  revert i. induction ts as [|t ts IH]; intros i; [done|].
  destruct i as [|i]; simpl.
  - intros [= ->]. rewrite !in_flight_cons. lia.
  - intros Hi. rewrite !in_flight_cons. specialize (IH i Hi). lia.
Qed.

Lemma in_flight_finished ts : all_finished ts = true -> in_flight ts = 0%nat.
Proof.
  induction ts as [|t ts IH]; [done|]. simpl.
  intros [Ht Hts]%andb_true_iff. rewrite in_flight_cons, IH by done.
  by destruct t.
Qed.

Lemma in_flight_start cpu_count aweme_list :
  in_flight (tasks (start cpu_count aweme_list)) = 0%nat.
Proof. simpl. induction aweme_list as [|a l IH]; [done|]. simpl. by rewrite in_flight_cons. Qed.

Lemma step_accounted s s' :
  step s s' -> accounted s' = accounted s /\ length (tasks s') = length (tasks s).
Proof.
  unfold accounted.
  destruct 1 as [p ts i Hi|p ts i Hi|p ts i Hi|p ts i Hi]; simpl;
    rewrite ?length_insert; (split; [|done]); try done.
  - pose proof (in_flight_insert ts i Pending InFlight Hi) as H.
    unfold holds in H. simpl in H. lia.
  - pose proof (in_flight_insert ts i InFlight Returned Hi) as H.
    unfold holds in H. simpl in H. lia.
  - pose proof (in_flight_insert ts i InFlight Logged Hi) as H.
    unfold holds in H. simpl in H. lia.
Qed.

Lemma steps_accounted s s' :
  rtc step s s' -> accounted s' = accounted s /\ length (tasks s') = length (tasks s).
Proof.
  induction 1 as [s|s1 s2 s3 H12 _ [IH1 IH2]]; [done|].
  destruct (step_accounted _ _ H12) as [H1 H2]. split; congruence.
Qed.

(** What holds of every pool that keeps all its permits accounted for. *)
Lemma accounted_ceiling cpu_count n s :
  accounted s = cpu_count -> length (tasks s) = n ->
  (in_flight (tasks s) <= cpu_count)%nat /\
  (permits s + in_flight (tasks s) = cpu_count)%nat /\
  length (tasks s) = n /\
  (all_finished (tasks s) = true -> permits s = cpu_count).
Proof.
  unfold accounted. intros Hacc Hlen. split_and!; [lia | done | done |].
  intros Hfin%in_flight_finished. lia.
Qed.

Lemma accounted_start cpu_count aweme_list :
  accounted (start cpu_count aweme_list) = cpu_count.
Proof. unfold accounted. rewrite in_flight_start. simpl. lia. Qed.

Lemma phase_steps_accounted cpu_count aweme_list ph :
  rtc (phase_step cpu_count aweme_list) (Details (start cpu_count aweme_list)) ph ->
  accounted (pool_of ph) = cpu_count /\
  length (tasks (pool_of ph)) = length aweme_list.
Proof.
  revert ph.
  apply (rtc_ind_r (fun ph => accounted (pool_of ph) = cpu_count /\
                              length (tasks (pool_of ph)) = length aweme_list)).
  - split; [apply accounted_start | simpl; apply length_map].
  - intros ph1 ph2 _ Hstep [IH1 IH2].
    destruct Hstep as [s s' Hs|s Hfin|s s' Hs]; simpl in *.
    + destruct (step_accounted _ _ Hs). split; congruence.
    + split; [apply accounted_start | apply length_map].
    + destruct (step_accounted _ _ Hs). split; congruence.
Qed.

End OrchestratorFacts.

Section OrchestratorClaims.
Import Orchestrator.

(** C9.  Over a list of items and a semaphore of [cpu_count] permits, in
    every state a run of [batch_get_note_comments] or of
    [get_specified_awemes] passes through: at most [cpu_count] tasks are
    inside their [async with] block; the permits left and the permits held
    add up to [cpu_count], whether the tasks that left the block returned
    or went through their handler; and once every task is done all permits
    are back. *)
Theorem concurrency_ceiling (cpu_count : nat) (aweme_list : list string) :
  (forall s, batch_get_note_comments cpu_count aweme_list s ->
     (in_flight (tasks s) <= cpu_count)%nat /\
     (permits s + in_flight (tasks s) = cpu_count)%nat /\
     length (tasks s) = length aweme_list /\
     (all_finished (tasks s) = true -> permits s = cpu_count)) /\
  (forall ph, get_specified_awemes cpu_count aweme_list ph ->
     (in_flight (tasks (pool_of ph)) <= cpu_count)%nat /\
     (permits (pool_of ph) + in_flight (tasks (pool_of ph)) = cpu_count)%nat /\
     length (tasks (pool_of ph)) = length aweme_list /\
     (all_finished (tasks (pool_of ph)) = true -> permits (pool_of ph) = cpu_count)).
Proof.
  split.
  - intros s Hrun. destruct (steps_accounted _ _ Hrun) as [Hacc Hlen].
    apply accounted_ceiling.
    + by rewrite Hacc, accounted_start.
    + rewrite Hlen. simpl. apply length_map.
  - intros ph Hrun. destruct (phase_steps_accounted _ _ _ Hrun) as [Hacc Hlen].
    by apply accounted_ceiling.
Qed.

Lemma concurrency_ceiling_witness :
  let s := {| permits := 1; tasks := [Logged; InFlight; Pending] |} in
  batch_get_note_comments 2 ["a"; "b"; "c"]%string s /\
  (in_flight (tasks s) <= 2)%nat /\
  (permits s + in_flight (tasks s) = 2)%nat.
Proof.
  cbn zeta.
  assert (batch_get_note_comments 2 ["a"; "b"; "c"]%string
            {| permits := 1; tasks := [Logged; InFlight; Pending] |}) as Hrun.
  { unfold batch_get_note_comments, start. cbn [map].
    eapply rtc_l; [apply (step_acquire 1 [Pending; Pending; Pending] 0); reflexivity|].
    eapply rtc_l; [apply (step_acquire 0 [InFlight; Pending; Pending] 1); reflexivity|].
    eapply rtc_l; [apply (step_await 0 [InFlight; InFlight; Pending] 1); reflexivity|].
    eapply rtc_l; [apply (step_except 0 [InFlight; InFlight; Pending] 0); reflexivity|].
    apply rtc_refl. }
  split; [exact Hrun|].
  destruct (concurrency_ceiling 2 ["a"; "b"; "c"]%string) as [Hbatch _].
  destruct (Hbatch _ Hrun) as (H1 & H2 & _). split; [exact H1 | exact H2].
Defined.

End OrchestratorClaims.

(* ===================================================================== *)
(** * More on the comment harvester *)
(* ===================================================================== *)

Section HarvestMore.
Import Harvest HarvestTrace.

Variable aweme_id : string.
Variable crawl_interval : float.
Variable is_fetch_sub_comments : bool.
Variable callback : bool.
Variable max_comments : option Z.
Variable keywords : option (list string).

Abbreviation body :=
  (loop_body aweme_id crawl_interval is_fetch_sub_comments callback max_comments keywords).
Abbreviation loop :=
  (run_loop aweme_id crawl_interval is_fetch_sub_comments callback max_comments keywords).
Abbreviation cond := (while_cond max_comments).
Abbreviation count := collected_comments_count.

(** The three shapes a pass can have. *)
Lemma body_shape st rp evs st' ctl :
  body st rp = (evs, st', ctl) ->
  let fetch := EFetch aweme_id (comments_cursor st) in
  let cb := if callback then [ECallback aweme_id (page_comments rp)] else [] in
  let result := comments_to_add max_comments (count st)
                  (filter_comments keywords (page_comments rp)) in
  (page_comments rp = [] /\ evs = [fetch] /\ count st' = count st /\ ctl <> Break) \/
  (page_comments rp <> [] /\ evs = fetch :: cb /\ ctl = Break /\
   count st' = count st + len result /\ quota_reached max_comments (count st') = true) \/
  (page_comments rp <> [] /\
   evs = fetch :: cb ++ [ESleep crawl_interval; EYield result] /\ ctl = Continue /\
   count st' = count st + len result /\ quota_reached max_comments (count st') = false).
Proof.
  unfold loop_body. destruct rp as [res|msg]; simpl.
  - destruct (default [] (res_comments res)) as [|c cs] eqn:Hcs.
    + intros [= <- <- <-]. left. by split_and!.
    + destruct (quota_reached _ _) eqn:Hq; intros [= <- <- <-]; simpl.
      * right. left. by split_and!.
      * right. right. split_and!; try done. by destruct is_fetch_sub_comments.
  - intros [= <- <- <-]. left. by split_and!.
Qed.

(** Past a pass that yields, the count is below a positive quota. *)
Lemma quota_not_reached m c :
  max_comments = Some m -> 0 < m -> quota_reached max_comments c = false -> c < m.
Proof.
  intros -> Hm. unfold quota_reached.
  rewrite (proj2 (Z.ltb_lt 0 m) Hm). simpl. intros H%Z.leb_gt. lia.
Qed.

Lemma events_cons it its : events (it :: its) = it_events it ++ events its.
Proof. reflexivity. Qed.

Lemma total_yielded_fetch c evs :
  total_yielded (EFetch aweme_id c :: evs) = total_yielded evs.
Proof. reflexivity. Qed.

Lemma run_loop_yields_below m script st :
  max_comments = Some m -> 0 < m ->
  let its := (loop script st).1 in
  total_yielded (events its) = 0 \/ count st + total_yielded (events its) < m.
Proof.
  intros Hmax Hm. revert st.
  induction script as [|rp script IH]; intros st; cbn zeta.
  - left. simpl. by destruct (cond st).
  - rewrite run_loop_cons. destruct (cond st) eqn:Hc; [|by left].
    destruct (body st rp) as [[evs st'] ctl] eqn:Hb.
    destruct (body_shape _ _ _ _ _ Hb)
      as [(_ & -> & Hcnt & Hctl)|[(_ & -> & -> & _ & _)|(_ & -> & -> & Hcnt & Hq)]].
    + destruct ctl; [|done|by left].
      specialize (IH st'). destruct (loop script st') as [its out].
      cbn [fst] in *. rewrite events_cons. cbn [it_events].
      rewrite total_yielded_app.
      change (total_yielded [EFetch aweme_id (comments_cursor st)]) with 0.
      rewrite Hcnt in IH. lia.
    + left. cbn [fst]. rewrite events_cons. cbn [it_events events map concat].
      rewrite app_nil_r, total_yielded_fetch. by destruct callback.
    + apply (quota_not_reached m) in Hq; [|done..].
      specialize (IH st'). destruct (loop script st') as [its out].
      cbn [fst] in *. rewrite events_cons. cbn [it_events].
      rewrite total_yielded_app.
      set (result := comments_to_add max_comments (count st)
                       (filter_comments keywords (page_comments rp))) in *.
      assert (total_yielded
                (EFetch aweme_id (comments_cursor st)
                   :: (if callback then [ECallback aweme_id (page_comments rp)] else [])
                   ++ [ESleep crawl_interval; EYield result]) = len result) as ->
        by (destruct callback; cbv [total_yielded yielded]; simpl; lia).
      pose proof (len_nonneg result). right. lia.
Qed.

(** Where a pass leaves the cursor and the flag. *)
Lemma body_next st res evs st' ctl :
  body st (Reply res) = (evs, st', ctl) ->
  comments_cursor st' = default 0 (res_cursor res) /\
  comments_has_more st' = default 0 (res_has_more res).
Proof.
  unfold loop_body. destruct (default [] (res_comments res)) as [|c cs].
  - by intros [= <- <- <-].
  - cbn zeta. destruct (quota_reached _ _); by intros [= <- <- <-].
Qed.

Lemma body_raises st msg :
  body st (Raises msg) = ([EFetch aweme_id (comments_cursor st)], st, Raise msg).
Proof. reflexivity. Qed.

Lemma body_control st res evs st' ctl :
  body st (Reply res) = (evs, st', ctl) -> ctl = Continue \/ ctl = Break.
Proof.
  unfold loop_body. destruct (default [] (res_comments res)) as [|c cs].
  - intros [= <- <- <-]. by left.
  - cbn zeta. destruct (quota_reached _ _); intros [= <- <- <-]; auto.
Qed.

(** A pass makes one fetch, at the cursor it was entered with. *)
Lemma body_fetched st rp evs st' ctl :
  body st rp = (evs, st', ctl) -> fetched_cursors evs = [comments_cursor st].
Proof.
  intros Hb. destruct (body_shape _ _ _ _ _ Hb)
    as [(_ & -> & _)|[(_ & -> & _)|(_ & -> & _)]];
    by destruct callback.
Qed.

Lemma fetched_cursors_app evs1 evs2 :
  fetched_cursors (evs1 ++ evs2) = fetched_cursors evs1 ++ fetched_cursors evs2.
Proof. apply omap_app. Qed.

Lemma run_loop_cursors script st :
  let its := (loop script st).1 in
  fetched_cursors (events its)
    = take (length its) (comments_cursor st :: map reply_cursor script) /\
  (length its <= length script)%nat.
Proof.
  revert st. induction script as [|rp script IH]; intros st; cbn zeta.
  - simpl. by destruct (cond st).
  - rewrite run_loop_cons. destruct (cond st) eqn:Hc; [|split; [done | simpl; lia]].
    destruct (body st rp) as [[evs st'] ctl] eqn:Hb.
    pose proof (body_fetched _ _ _ _ _ Hb) as Hf.
    destruct ctl; cbn zeta.
    + destruct rp as [res|msg]; [|by rewrite body_raises in Hb].
      destruct (body_next _ _ _ _ _ Hb) as [Hcur _].
      destruct (IH st') as [IH1 IH2]. destruct (loop script st') as [its out].
      cbn [fst] in *. rewrite events_cons. cbn [it_events].
      rewrite fetched_cursors_app, Hf, IH1, Hcur. split; [done | simpl; lia].
    + cbn [fst]. rewrite events_cons. cbn [it_events events map concat].
      rewrite app_nil_r, Hf. split; [done | simpl; lia].
    + cbn [fst]. rewrite events_cons. cbn [it_events events map concat].
      rewrite app_nil_r, Hf. split; [done | simpl; lia].
Qed.

(** A run fails exactly on a raising fetch, which is its last pass. *)
Lemma run_loop_failed script st msg :
  (loop script st).2 = Failed msg ->
  exists its it,
    (loop script st).1 = its ++ [it] /\
    it_reply it = Raises msg /\
    it_events it = [EFetch aweme_id (comments_cursor (it_before it))] /\
    it_control it = Raise msg.
Proof.
  revert st. induction script as [|rp script IH]; intros st.
  - simpl. by destruct (cond st).
  - rewrite run_loop_cons. destruct (cond st) eqn:Hc; [|done].
    destruct (body st rp) as [[evs st'] ctl] eqn:Hb.
    destruct ctl; cbn zeta.
    + specialize (IH st'). destruct (loop script st') as [its out]. cbn [fst snd] in *.
      intros Hout. destruct (IH Hout) as (its' & it & -> & H).
      eexists (_ :: its'), it. split; [reflexivity | exact H].
    + done.
    + cbn [fst snd]. intros [= ->].
      destruct rp as [res|msg'].
      * by destruct (body_control _ _ _ _ _ Hb).
      * rewrite body_raises in Hb. injection Hb as <- <- <-.
        by eexists [], _.
Qed.


Lemma run_loop_replies script st msg :
  Forall (fun rp => is_reply rp = true) script -> (loop script st).2 <> Failed msg.
Proof.
  intros Hs Hout. destruct (run_loop_failed _ _ _ Hout) as (its & it & Hits & Hrp & _).
  assert (it ∈ (loop script st).1) as Hin by (rewrite Hits; set_solver).
  clear Hits Hout. revert st Hin.
  induction Hs as [|rp script Hrp' _ IH]; intros st.
  - simpl. destruct (cond st); simpl; by intros ?%elem_of_nil.
  - rewrite run_loop_cons. destruct (cond st); [|by intros ?%elem_of_nil].
    destruct (body st rp) as [[evs st'] ctl] eqn:Hb.
    destruct ctl; cbn zeta.
    + specialize (IH st'). destruct (loop script st') as [its' out]. cbn [fst] in *.
      intros [->|Hin]%elem_of_cons; [|by apply IH].
      cbn [it_reply] in Hrp. by subst rp.
    + cbn [fst]. intros [->|?%elem_of_nil]%elem_of_cons; [|done].
      cbn [it_reply] in Hrp. by subst rp.
    + cbn [fst]. intros [->|?%elem_of_nil]%elem_of_cons; [|done].
      cbn [it_reply] in Hrp. by subst rp.
Qed.

Lemma yielded_pass c (raw b : list comment) :
  yielded (EFetch aweme_id c :: (if callback then [ECallback aweme_id raw] else [])
             ++ [ESleep crawl_interval; EYield b]) = [b].
Proof. by destruct callback. Qed.

Abbreviation unlimited := (no_quota max_comments).

(** Without a quota the loop runs on the flag alone and nothing is cut. *)
Lemma unlimited_cond st : unlimited -> cond st = py_truthy (comments_has_more st).
Proof.
  unfold while_cond. intros [-> | ->]; simpl; rewrite ?orb_true_r; apply andb_true_r.
Qed.

Lemma unlimited_quota c : unlimited -> quota_reached max_comments c = false.
Proof. by intros [-> | ->]. Qed.

Lemma unlimited_cut c l : unlimited -> comments_to_add max_comments c l = l.
Proof. by intros [-> | ->]. Qed.

(** One pass without a quota: the page is yielded whole when it has
    comments, and the loop variables are the page's. *)
Lemma unlimited_pass res script st :
  unlimited -> cond st = true ->
  exists it st',
    loop (Reply res :: script) st = (it :: (loop script st').1, (loop script st').2) /\
    comments_has_more st' = default 0 (res_has_more res) /\
    yielded (it_events it) =
      if has_comments res then [filter_comments keywords (comments_of res)] else [].
Proof.
  intros Hun Hc. rewrite run_loop_cons, Hc.
  destruct (body st (Reply res)) as [[evs st'] ctl] eqn:Hb.
  destruct (body_next _ _ _ _ _ Hb) as [_ Hmore].
  destruct (body_shape _ _ _ _ _ Hb)
    as [(Hem & -> & _ & Hctl)|[(_ & _ & _ & _ & Hq)|(Hne & -> & -> & _ & _)]].
  - destruct (body_control _ _ _ _ _ Hb) as [-> | ->]; [|done].
    cbn zeta. destruct (loop script st') as [its out] eqn:Hl.
    eexists _, st'. rewrite Hl. split_and!; [reflexivity | done |].
    unfold has_comments, comments_of. simpl in Hem. by rewrite Hem.
  - by rewrite unlimited_quota in Hq.
  - cbn zeta. destruct (loop script st') as [its out] eqn:Hl.
    eexists _, st'. rewrite Hl. split_and!; [reflexivity | done |].
    cbn [it_events]. rewrite yielded_pass, unlimited_cut by done.
    unfold has_comments, comments_of.
    change (page_comments (Reply res)) with (default [] (res_comments res)) in *.
    by destruct (default [] (res_comments res)); [destruct Hne|].
Qed.

Lemma run_loop_unlimited pages last rest st :
  unlimited ->
  Forall (fun res => announces_more res = true) pages ->
  announces_more last = false ->
  cond st = true ->
  let r := loop (map Reply (pages ++ [last]) ++ rest) st in
  yielded (events r.1)
    = map (fun res => filter_comments keywords (comments_of res))
          (List.filter has_comments (pages ++ [last])) /\
  r.2 = Finished /\
  length r.1 = S (length pages).
Proof.
  intros Hun Hpages Hlast. revert st.
  induction Hpages as [|res pages Hmore _ IH]; intros st Hc; cbn zeta.
  - cbn [app map].
    destruct (unlimited_pass last rest st Hun Hc) as (it & st' & -> & Hst' & Hy).
    assert (cond st' = false) as Hstop.
    { rewrite unlimited_cond, Hst' by done. exact Hlast. }
    rewrite (run_loop_stops _ _ _ _ _ _ _ _ Hstop). cbn [fst snd].
    rewrite events_cons, yielded_app, Hy. cbn [List.filter].
    split_and!; [|done..]. by destruct (has_comments last).
  - cbn [app map].
    destruct (unlimited_pass res (map Reply (pages ++ [last]) ++ rest) st Hun Hc)
      as (it & st' & -> & Hst' & Hy).
    assert (cond st' = true) as Hgo.
    { rewrite unlimited_cond, Hst' by done. exact Hmore. }
    destruct (IH st' Hgo) as (IH1 & IH2 & IH3). cbn [fst snd].
    rewrite events_cons, yielded_app, Hy, IH1. cbn [List.filter length].
    split_and!; [|done|by rewrite IH3]. by destruct (has_comments res).
Qed.

End HarvestMore.

Section HarvestExtras.
Import Harvest HarvestTrace.

(** Under a positive [max_comments] the caller never receives
    [max_comments] comments: a pass that brings the count up to the quota
    leaves the loop before its [yield], so what is yielded stays strictly
    below the quota. *)
Theorem yielded_total_below_quota
    (aweme_id : string) (crawl_interval : float) (is_fetch_sub_comments callback : bool)
    (m : Z) (keywords : option (list string)) (script : list reply) :
  0 < m ->
  total_yielded (events (get_aweme_all_comments aweme_id crawl_interval
                           is_fetch_sub_comments callback (Some m) keywords script).1) < m.
Proof.
  intros Hm.
  pose proof (run_loop_yields_below aweme_id crawl_interval is_fetch_sub_comments callback
                (Some m) keywords m script initial_state eq_refl Hm) as H.
  cbn zeta in H. unfold get_aweme_all_comments. simpl in H. lia.
Qed.

Lemma yielded_total_below_quota_witness :
  total_yielded (events (get_aweme_all_comments "A" 1%float false false (Some 25) None
                           item_A).1) < 25.
Proof.
  apply (yielded_total_below_quota "A" 1%float false false 25 None item_A). lia.
Defined.

(** The cursor is never made up: the first fetch is at cursor 0 and every
    later fetch is at the cursor the reply before it carried (0 when the
    reply had none).  A run makes one fetch per pass and no more passes
    than there are replies. *)
Theorem fetch_cursors_chain
    (aweme_id : string) (crawl_interval : float) (is_fetch_sub_comments callback : bool)
    (max_comments : option Z) (keywords : option (list string)) (script : list reply) :
  let its := (get_aweme_all_comments aweme_id crawl_interval is_fetch_sub_comments
                callback max_comments keywords script).1 in
  fetched_cursors (events its) = take (length its) (0 :: map reply_cursor script) /\
  (length its <= length script)%nat.
Proof.
  apply (run_loop_cursors aweme_id crawl_interval is_fetch_sub_comments callback
           max_comments keywords script initial_state).
Qed.

(** Without a quota ([max_comments] absent or 0) the harvest is bounded by
    [has_more] alone: over pages that all announce more, followed by one
    that does not, every page that has comments is yielded, filtered by the
    keywords and not cut, the run ends normally after the last of them, and
    nothing after it is fetched. *)
Theorem unlimited_harvest
    (aweme_id : string) (crawl_interval : float) (is_fetch_sub_comments callback : bool)
    (max_comments : option Z) (keywords : option (list string))
    (pages : list comments_res) (last : comments_res) (rest : list reply) :
  no_quota max_comments ->
  Forall (fun res => announces_more res = true) pages ->
  announces_more last = false ->
  let r := get_aweme_all_comments aweme_id crawl_interval is_fetch_sub_comments
             callback max_comments keywords (map Reply (pages ++ [last]) ++ rest) in
  yielded (events r.1)
    = map (fun res => filter_comments keywords (comments_of res))
          (List.filter has_comments (pages ++ [last])) /\
  r.2 = Finished /\
  length r.1 = S (length pages).
Proof.
  intros Hun Hpages Hlast.
  apply (run_loop_unlimited aweme_id crawl_interval is_fetch_sub_comments callback
           max_comments keywords pages last rest initial_state Hun Hpages Hlast).
  by destruct Hun as [-> | ->].
Qed.

Lemma unlimited_harvest_witness :
  let r := get_aweme_all_comments "A" 1%float false false (Some 0) None
             (map Reply ([res_page 1 15 (numbered "a" 15); res_page 1 15 []]
                           ++ [res_page 0 25 (numbered "b" 10)])
                ++ [Raises "never fetched"]) in
  yielded (events r.1) = [numbered "a" 15; numbered "b" 10] /\
  r.2 = Finished /\
  length r.1 = 3%nat.
Proof.
  apply (unlimited_harvest "A" 1%float false false (Some 0) None
           [res_page 1 15 (numbered "a" 15); res_page 1 15 []]
           (res_page 0 25 (numbered "b" 10)) [Raises "never fetched"]).
  - by right.
  - repeat constructor.
  - reflexivity.
Defined.





End HarvestExtras.

(* ===================================================================== *)
(** * More on request signing *)
(* ===================================================================== *)

Section SigningMore.
Import Signing.

Lemma dict_set_NoDup k v d : NoDup (keys d) -> NoDup (keys (dict_set k v d)).
Proof.
  intros Hd. rewrite keys_set. destruct (decide (k ∈ keys d)) as [Hin|Hin]; [done|].
  apply NoDup_app. split_and!; [done | | apply NoDup_singleton].
  intros x Hx ->%list_elem_of_singleton. done.
Qed.

Lemma dict_update_NoDup d src : NoDup (keys d) -> NoDup (keys (dict_update d src)).
Proof.
  revert d. induction src as [|[k v] src IH]; intros d Hd; [done|].
  rewrite dict_update_cons. by apply IH, dict_set_NoDup.
Qed.

Lemma common_in_merged p k v :
  (k, v) ∈ common_params -> dict_get k (dict_update p common_params) = Some v.
Proof.
  intros Hin. rewrite dict_get_update by apply common_params_NoDup.
  by rewrite (dict_get_elem _ _ _ common_params_NoDup Hin).
Qed.

Lemma x_bogus_in_merged p :
  dict_get x_bogus_key (dict_update p common_params) = dict_get x_bogus_key p.
Proof.
  rewrite dict_get_update by apply common_params_NoDup.
  by rewrite x_bogus_not_common.
Qed.

End SigningMore.

Section SigningExtras.
Import Signing.

(** When the call raises on a non-empty dict, the dict is in one of two
    states.  If the storage read or the compilation of the script raises,
    the dict is as the caller passed it and the evaluator is not called.
    If the headers have no User-Agent or the evaluator fails, the dict has
    already been changed in place: the constants are merged in, the
    [X-Bogus] entry is as the caller left it; without a User-Agent the
    evaluator is not called.  A call that raises stores no signature. *)
Theorem signing_failure_outcomes
    (js_sign : string -> string -> option string)
    (self_headers : gmap string string) (local_storage douyin_js : result unit)
    (headers : option (gmap string string))
    (p : dict) :
  p <> [] ->
  let merged := dict_update p common_params in
  let r := process_req_params js_sign self_headers local_storage douyin_js
             (Some p) headers in
  (forall e, local_storage = raise e ->
   raised r = Some e /\ sign_calls r = [] /\ params_after r = Some p) /\
  (forall e, local_storage = ok tt -> douyin_js = raise e ->
   raised r = Some e /\ sign_calls r = [] /\ params_after r = Some p) /\
  (local_storage = ok tt -> douyin_js = ok tt ->
   headers_or self_headers headers !! user_agent_key = None ->
   raised r = Some (KeyError user_agent_key) /\ sign_calls r = [] /\
   params_after r = Some merged) /\
  (forall ua, local_storage = ok tt -> douyin_js = ok tt ->
   headers_or self_headers headers !! user_agent_key = Some ua ->
   js_sign (query_of merged) ua = None ->
   raised r = Some (JsError "sign") /\ sign_calls r = [(query_of merged, ua)] /\
   params_after r = Some merged) /\
  (forall k v, (k, v) ∈ common_params -> dict_get k merged = Some v) /\
  dict_get x_bogus_key merged = dict_get x_bogus_key p /\
  (forall e, raised r = Some e ->
   (params_after r = Some p \/ params_after r = Some merged) /\
   signature_of r = None).
Proof.
  intros Hp merged r. subst r. unfold process_req_params, signature_of.
  destruct p as [|kv p]; [done|]. fold merged. split_and!.
  - intros e ->. done.
  - intros e -> ->. done.
  - intros -> -> ->. done.
  - intros ua -> -> -> ->. done.
  - intros k v. apply common_in_merged.
  - apply x_bogus_in_merged.
  - intros e.
    destruct local_storage as [e1|[]]; [intros [= <-]; split; [by left | done]|].
    destruct douyin_js as [e2|[]]; [intros [= <-]; split; [by left | done]|].
    destruct (headers_or self_headers headers !! user_agent_key) as [ua|];
      [|intros [= <-]; split; [by right | done]].
    destruct (js_sign (query_of merged) ua) as [sig|]; [done|].
    intros [= <-]. split; [by right | done].
Qed.

Lemma signing_failure_outcomes_witness :
  let no_page := process_req_params echo_sign sample_headers
                   (raise (AttributeError "evaluate")) ready (Some sample_params) None in
  let no_agent := process_req_params echo_sign ∅ ready ready (Some sample_params) None in
  (raised no_page = Some (AttributeError "evaluate") /\
   params_after no_page = Some sample_params) /\
  raised no_agent = Some (KeyError user_agent_key) /\
  exists p', params_after no_agent = Some p' /\ dict_get "aid" p' = Some "6383"%string.
Proof.
  cbn zeta. split.
  - destruct (signing_failure_outcomes echo_sign sample_headers
                (raise (AttributeError "evaluate")) ready None sample_params)
      as (Hpage & _); [done|].
    destruct (Hpage (AttributeError "evaluate") eq_refl) as (Hraised & _ & Hafter).
    by split.
  - destruct (signing_failure_outcomes echo_sign ∅ ready ready None sample_params)
      as (_ & _ & Hua & _ & Hcommon & _); [done|].
    destruct (Hua eq_refl eq_refl eq_refl) as (Hraised & _ & Hafter).
    split; [exact Hraised|]. eexists. split; [exact Hafter|].
    apply Hcommon. unfold common_params. rewrite !elem_of_cons. tauto.
Defined.

(** Signing keeps the dict a dict: when the caller's keys are distinct,
    so are the keys after the call, however often it is signed; a dict
    signed before holds one [X-Bogus] entry, not two. *)
Theorem signing_keeps_keys_unique
    (js_sign : string -> string -> option string)
    (self_headers : gmap string string) (local_storage douyin_js : result unit)
    (headers : option (gmap string string))
    (p : dict) :
  NoDup (keys p) ->
  forall p', params_after (process_req_params js_sign self_headers local_storage
                             douyin_js (Some p) headers)
             = Some p' ->
  NoDup (keys p').
Proof.
  intros Hp p'. unfold process_req_params.
  destruct p as [|kv p]; [by intros [= <-]|].
  destruct local_storage as [e|[]]; [by intros [= <-]|].
  destruct douyin_js as [e|[]]; [by intros [= <-]|].
  set (merged := dict_update (kv :: p) common_params).
  assert (NoDup (keys merged)) as Hm by by apply dict_update_NoDup.
  destruct (headers_or self_headers headers !! user_agent_key) as [ua|];
    [|intros Heq; apply (inj Some) in Heq; by rewrite <- Heq].
  destruct (js_sign _ ua) as [sig|]; intros Heq; apply (inj Some) in Heq;
    rewrite <- Heq; [by apply dict_set_NoDup | done].
Qed.

Lemma signing_keeps_keys_unique_witness :
  let r1 := process_req_params echo_sign sample_headers ready ready
              (Some sample_params) None in
  let r2 := process_req_params echo_sign sample_headers ready ready
              (params_after r1) None in
  exists p2, params_after r2 = Some p2 /\ NoDup (keys p2).
Proof.
  cbn zeta. eexists. split; [reflexivity|].
  apply (signing_keeps_keys_unique echo_sign sample_headers ready ready None
           (dict_set x_bogus_key (query_of (dict_update sample_params common_params))
              (dict_update sample_params common_params)));
    [|reflexivity].
  apply (signing_keeps_keys_unique echo_sign sample_headers ready ready None
           sample_params);
    [|reflexivity].
  apply (bool_decide_unpack _). by vm_compute.
Defined.

(** Signing a dict that was signed before changes its [X-Bogus] value and
    nothing else: the keys stay as they are, in their order, and every
    other entry keeps its value.  The query of the second call is the whole
    signed dict, the old signature included. *)
Theorem resigning_changes_only_signature
    (js_sign : string -> string -> option string)
    (self_headers : gmap string string) (local_storage douyin_js : result unit)
    (headers : option (gmap string string))
    (p p1 : dict) (ua s2 : string) :
  p <> [] ->
  headers_or self_headers headers !! user_agent_key = Some ua ->
  let r1 := process_req_params js_sign self_headers local_storage douyin_js
              (Some p) headers in
  raised r1 = None ->
  params_after r1 = Some p1 ->
  js_sign (query_of p1) ua = Some s2 ->
  let r2 := process_req_params js_sign self_headers local_storage douyin_js
              (Some p1) headers in
  sign_calls r2 = [(query_of p1, ua)] /\
  params_after r2 = Some (dict_set x_bogus_key s2 p1) /\
  keys (dict_set x_bogus_key s2 p1) = keys p1 /\
  (forall k, k <> x_bogus_key ->
     dict_get k (dict_set x_bogus_key s2 p1) = dict_get k p1).
Proof.
  intros Hp Hua r1 Hraised Hp1 Hs2 r2.
  destruct (process_req_params_passed js_sign self_headers local_storage douyin_js
              p headers Hp Hraised) as (-> & -> & ua' & s1 & Hua' & Hs1).
  assert (ua' = ua) as -> by congruence.
  assert (p1 = dict_set x_bogus_key s1 (dict_update p common_params)) as ->.
  { subst r1. rewrite (process_req_params_signed _ _ _ _ _ _ Hp Hua Hs1) in Hp1.
    by injection Hp1. }
  assert (r2 = {| params_after :=
                    Some (dict_set x_bogus_key s2
                            (dict_set x_bogus_key s1 (dict_update p common_params)));
                  sign_calls :=
                    [(query_of (dict_set x_bogus_key s1 (dict_update p common_params)),
                      ua)];
                  raised := None |}) as ->.
  { subst r2. rewrite (process_req_params_signed js_sign self_headers _ headers ua s2).
    - by rewrite merged_signed_absorbs.
    - apply dict_set_nonempty.
    - done.
    - by rewrite merged_signed_absorbs. }
  cbn [sign_calls params_after]. split_and!; [done | done | |].
  - rewrite keys_set. rewrite decide_True; [done|].
    apply dec_stable. intros Hnot%dict_get_None.
    by rewrite dict_get_set_eq in Hnot.
  - intros k Hk. by apply dict_get_set_ne.
Qed.

Lemma resigning_changes_only_signature_witness :
  let r1 := process_req_params echo_sign sample_headers ready ready
              (Some sample_params) None in
  let r2 := process_req_params echo_sign sample_headers ready ready
              (params_after r1) None in
  exists p1 p2, params_after r1 = Some p1 /\ params_after r2 = Some p2 /\
                keys p2 = keys p1.
Proof.
  cbn zeta.
  destruct (resigning_changes_only_signature echo_sign sample_headers ready ready None
              sample_params
              (dict_set x_bogus_key (query_of (dict_update sample_params common_params))
                 (dict_update sample_params common_params))
              "Mozilla/5.0"%string
              (query_of (dict_set x_bogus_key
                           (query_of (dict_update sample_params common_params))
                           (dict_update sample_params common_params))))
    as (_ & Hafter & Hkeys & _); try reflexivity; [done|].
  eexists _, _. split_and!; [reflexivity | exact Hafter | exact Hkeys].
Defined.

End SigningExtras.

(* ===================================================================== *)
(** * More on trajectory synthesis *)
(* ===================================================================== *)

Section TrackMore.
Import Tracks.

Lemma prefix_sums_last offsets tracks :
  offsets <> [] -> prefix_sums offsets tracks -> sumZ tracks = List.last offsets 0.
Proof.
  intros Hne [Hlen Hsum].
  destruct (exists_last Hne) as (offsets' & o & ->).
  rewrite last_last.
  rewrite <- (Hsum (length offsets') o).
  - rewrite take_ge; [done|]. rewrite Hlen, length_app. simpl. lia.
  - by rewrite lookup_app_r, Nat.sub_diag by lia.
Qed.

Lemma prefix_sums_snoc offsets tracks offset :
  offsets <> [] -> prefix_sums offsets tracks ->
  prefix_sums (offsets ++ [offset]) (tracks ++ [offset - List.last offsets 0]).
Proof.
  intros Hne Hps. pose proof (prefix_sums_last _ _ Hne Hps) as Hlast.
  destruct Hps as [Hlen Hsum]. split.
  - rewrite !length_app. simpl. lia.
  - intros i o Hi. destruct (decide (i < length offsets)%nat) as [Hlt|Hge].
    + rewrite lookup_app_l in Hi by done.
      rewrite take_app_le by lia. by apply Hsum.
    + rewrite lookup_app_r in Hi by lia.
      destruct (i - length offsets)%nat as [|n] eqn:Hn; [|by destruct n].
      injection Hi as <-.
      rewrite take_ge by (rewrite length_app; simpl; lia).
      rewrite sumZ_app, Hlast. simpl. lia.
Qed.

Lemma tracks_loop_prefix_sums globals distance seconds ease_func ts
    tracks offsets offsets' tracks' :
  offsets <> [] -> prefix_sums offsets tracks ->
  tracks_loop globals distance seconds ease_func ts tracks offsets = ok (offsets', tracks') ->
  prefix_sums offsets' tracks' /\
  length offsets' = (length offsets + length ts)%nat /\
  head offsets' = head offsets /\ head tracks' = head tracks.
Proof.
  revert tracks offsets. induction ts as [|t ts IH]; intros tracks offsets Hne Hps; simpl.
  - intros [= <- <-]. split_and!; [done | lia | done | done].
  - destruct (globals ease_func) as [ease|]; [|done].
    destruct (offset_at _ _ _ _) as [e|offset]; simpl; [done|].
    intros Hrun. apply IH in Hrun as (H1 & H2 & H3 & H4).
    + split_and!; [done | | |].
      * rewrite H2, length_app. simpl. lia.
      * rewrite H3. by destruct offsets.
      * rewrite H4. destruct Hps as [Hlen _]. destruct tracks, offsets; try done.
    + by destruct offsets.
    + by apply prefix_sums_snoc.
Qed.

End TrackMore.

Section TrackExtras.
Import Tracks.

(** The deltas of the eased policy are the first differences of its
    offsets: both lists start with 0, have one entry more than there are
    samples, and the first [i + 1] deltas sum to the offset at [i], for
    every [i].  This holds for any curve, distance and duration. *)
Theorem eased_tracks_are_first_differences
    (globals : string -> option (float -> float)) (distance seconds : Z)
    (ease_func : string) (offsets tracks : list Z) :
  _get_tracks globals distance seconds ease_func = ok (offsets, tracks) ->
  length tracks = length offsets /\
  head offsets = Some 0 /\ head tracks = Some 0 /\
  (forall i o, offsets !! i = Some o -> sumZ (take (S i) tracks) = o) /\
  (seconds = 2 -> length offsets = 21%nat).
Proof.
  intros Hrun.
  assert (exists ts, tracks_loop globals distance seconds ease_func ts [0] [0]
                     = ok (offsets, tracks) /\
                     (seconds = 2 -> ts = eased_samples)) as (ts & Hloop & Hts).
  { unfold _get_tracks in Hrun.
    apply ok_bind in Hrun as (ts & Hts & Hrun).
    exists ts. split; [done|]. intros ->.
    rewrite arange_two_seconds in Hts. by injection Hts. }
  apply tracks_loop_prefix_sums in Hloop as ([Hlen Hsum] & Hn & Ho & Ht).
  - split_and!; [done | done | done | done |].
    intros Hs. rewrite Hn, (Hts Hs). reflexivity.
  - done.
  - split; [done|]. intros [|i] o; [|done]. by intros [= <-].
Qed.

Lemma eased_tracks_are_first_differences_witness :
  exists offsets tracks,
    _get_tracks (only_curve linear) 300 2 "ease_out_expo" = ok (offsets, tracks) /\
    length offsets = 21%nat /\
    forall i o, offsets !! i = Some o -> sumZ (take (S i) tracks) = o.
Proof.
  eexists _, _. split; [vm_compute; reflexivity|].
  match goal with
  | |- length ?o = _ /\ (forall i x, _ -> sumZ (take _ ?t) = _) =>
      destruct (eased_tracks_are_first_differences (only_curve linear) 300 2
                  "ease_out_expo" o t) as (_ & _ & _ & Hsum & Hlen)
  end.
  - vm_compute. reflexivity.
  - split; [by apply Hlen | exact Hsum].
Defined.

(** The eased policy needs its curve: when the name it is asked for is
    not bound, it raises a [KeyError] for that name at the first sample,
    whatever the distance. *)
Theorem eased_needs_curve
    (globals : string -> option (float -> float)) (distance : Z) (ease_func : string) :
  globals ease_func = None ->
  _get_tracks globals distance 2 ease_func = raise (KeyError ease_func).
Proof.
  intros Hg. rewrite _get_tracks_two_seconds.
  unfold eased_samples. cbn [tracks_loop]. by rewrite Hg.
Qed.

Lemma eased_needs_curve_witness :
  _get_tracks (only_curve linear) 300 2 "ease_in_quad" = raise (KeyError "ease_in_quad").
Proof.
  apply (eased_needs_curve (only_curve linear) 300 "ease_in_quad"). reflexivity.
Defined.

End TrackExtras.

(* ===================================================================== *)
(** * More on the gap locator *)
(* ===================================================================== *)

Section CaptchaMore.
Import Captcha.

Lemma fold_left_inv {A B} (P : A -> Prop) (f : A -> B -> A) (l : list B) (a : A) :
  P a -> (forall a x, x ∈ l -> P a -> P (f a x)) -> P (fold_left f l a).
Proof.
  revert a. induction l as [|x l IH]; intros a Ha Hf; [done|]. simpl.
  apply IH.
  - apply Hf; [by left | done].
  - intros a' x' Hx'. apply Hf. by right.
Qed.

Lemma fold_left_ext_in {A B} (f g : A -> B -> A) (l : list B) (a : A) :
  (forall a x, x ∈ l -> f a x = g a x) -> fold_left f l a = fold_left g l a.
Proof.
  revert a. induction l as [|x l IH]; intros a Hfg; [done|]. simpl.
  rewrite Hfg by by left. apply IH. intros a' x' Hx'. apply Hfg. by right.
Qed.

Lemma elem_of_range1 x n : x ∈ range1 n <-> 1 <= x < n.
Proof. unfold range1. rewrite elem_of_seqZ. lia. Qed.

(** What every scanned position keeps, the scan keeps. *)
Lemma scan_inv (P : bbox -> Prop) (img : image) :
  P bbox0 ->
  (forall x y b, 1 <= x < rows_of img -> 1 <= y < cols_of img ->
                 P b -> P (scan_pixel img x y b)) ->
  P (scan img).
Proof.
  intros H0 Hstep. unfold scan. apply fold_left_inv; [done|].
  intros b x Hx%elem_of_range1 Hb. apply fold_left_inv; [done|].
  intros b' y Hy%elem_of_range1 Hb'. by apply Hstep.
Qed.

Lemma scan_pixel_plain img x y b : ~ coloured img x y -> scan_pixel img x y b = b.
Proof.
  intros Hc. unfold scan_pixel. destruct (pixel_at img x y) as [p|] eqn:Hp; [|done].
  destruct (2 <=? len (remove_dups p)) eqn:Hl; [|done].
  exfalso. apply Hc. exists p. split; [done|]. by apply Z.leb_le.
Qed.

Lemma coloured_dec img x y : coloured img x y \/ ~ coloured img x y.
Proof.
  unfold coloured. destruct (pixel_at img x y) as [p|]; [|right; by intros (? & ? & _)].
  destruct (decide (2 <= len (remove_dups p))) as [H|H].
  - left. by exists p.
  - right. intros (p' & [= <-] & H'). done.
Qed.

Ltac scan_pixel_cases :=
  unfold scan_pixel; cbv zeta;
  repeat match goal with
  | |- context [match pixel_at ?i ?x ?y with _ => _ end] =>
      destruct (pixel_at i x y) eqn:?
  | |- context [if ?a <=? ?b then _ else _] => destruct (Z.leb_spec a b)
  end; simpl in *.

Lemma scan_pixel_in_range img x y b :
  1 <= x < rows_of img -> 1 <= y < cols_of img ->
  bbox_in_range (rows_of img) (cols_of img) b ->
  bbox_in_range (rows_of img) (cols_of img) (scan_pixel img x y b).
Proof.
  unfold bbox_in_range. intros Hx Hy Hb. scan_pixel_cases; lia.
Qed.

(** With every coloured position in row [r], the scan never sets
    [max_x]. *)
Lemma scan_pixel_one_row img r x y b :
  r <= 255 -> (coloured img x y -> x = r) ->
  max_x b = 0 /\ (min_x b = 255 \/ min_x b = r) ->
  max_x (scan_pixel img x y b) = 0 /\
  (min_x (scan_pixel img x y b) = 255 \/ min_x (scan_pixel img x y b) = r).
Proof.
  intros Hr Hc Hb. destruct (coloured_dec img x y) as [Hcol|Hcol];
    [|by rewrite scan_pixel_plain].
  specialize (Hc Hcol). subst x. scan_pixel_cases; lia.
Qed.

Lemma scan_pixel_one_column img c x y b :
  c <= 255 -> (coloured img x y -> y = c) ->
  max_y b = 0 /\ (min_y b = 255 \/ min_y b = c) ->
  max_y (scan_pixel img x y b) = 0 /\
  (min_y (scan_pixel img x y b) = 255 \/ min_y (scan_pixel img x y b) = c).
Proof.
  intros Hr Hc Hb. destruct (coloured_dec img x y) as [Hcol|Hcol];
    [|by rewrite scan_pixel_plain].
  specialize (Hc Hcol). subst y. scan_pixel_cases; lia.
Qed.

Lemma crop_no_rows img b : max_x b = 0 -> crop img b = [].
Proof. intros H. unfold crop, py_slice. rewrite H. reflexivity. Qed.

Lemma crop_no_columns img b : max_y b = 0 -> is_empty_image (crop img b) = true.
Proof.
  intros H. unfold crop, is_empty_image. apply forallb_forall.
  intros row (row' & <- & _)%in_map_iff. unfold py_slice. by rewrite H.
Qed.

(** An empty crop makes [discern] raise, OpenCV refusing such an array. *)
Lemma discern_empty_crop cv2 self img :
  imread cv2 (gap self) None = Some img ->
  is_empty_image (crop img (scan img)) = true ->
  rejects_empty cv2 ->
  fails (discern cv2 self).
Proof.
  intros Hgap Hempty Hrej. unfold discern, clear_white. rewrite Hgap, bind_ok.
  apply fails_bind. by apply Hrej.
Qed.

End CaptchaMore.

Section CaptchaExtras.
Import Captcha.

(** Where [clear_white] can put the bounds of the box: each minimum is
    255, its start value, or a scanned index, and never above 255; each
    maximum is 0, its start value, or a scanned index.  Scanned indices
    start at 1, so the box never reaches into row 0 or column 0, and in an
    image with coloured pixels only beyond index 255 the minimum stays
    at 255. *)
Theorem scan_bounds (img : image) :
  bbox_in_range (rows_of img) (cols_of img) (scan img).
Proof.
  apply (scan_inv (bbox_in_range (rows_of img) (cols_of img))).
  - unfold bbox_in_range. simpl. lia.
  - intros x y b Hx Hy. by apply scan_pixel_in_range.
Qed.

(** A gap piece one pixel thin is lost.  When every coloured pixel the
    scan visits lies in one row (at most 255), or every one in one column,
    or there is none, the upper bound of the box is never set, the crop has
    no pixels, and [discern] raises once OpenCV refuses the empty array. *)
Theorem thin_feature_crops_to_nothing (img : image) (r c : Z) :
  (r <= 255 /\
   forall x y, 1 <= x < rows_of img -> 1 <= y < cols_of img ->
               coloured img x y -> x = r) \/
  (c <= 255 /\
   forall x y, 1 <= x < rows_of img -> 1 <= y < cols_of img ->
               coloured img x y -> y = c) ->
  is_empty_image (crop img (scan img)) = true /\
  forall cv2 self,
    imread cv2 (gap self) None = Some img -> rejects_empty cv2 ->
    fails (discern cv2 self).
Proof.
  intros Hthin.
  assert (is_empty_image (crop img (scan img)) = true) as Hempty.
  { destruct Hthin as [[Hr Hrow]|[Hc Hcol]].
    - rewrite crop_no_rows; [done|].
      apply (scan_inv (fun b => max_x b = 0 /\ (min_x b = 255 \/ min_x b = r)) img).
      + simpl. auto.
      + intros x y b Hx Hy. apply scan_pixel_one_row; [done|]. by apply Hrow.
    - apply crop_no_columns.
      apply (scan_inv (fun b => max_y b = 0 /\ (min_y b = 255 \/ min_y b = c)) img).
      + simpl. auto.
      + intros x y b Hx Hy. apply scan_pixel_one_column; [done|]. by apply Hcol. }
  split; [done|]. intros cv2 self Hgap Hrej. by apply (discern_empty_crop cv2 self img).
Qed.

Lemma thin_feature_crops_to_nothing_witness :
  crop bar (scan bar) = [] /\ is_empty_image (crop bar (scan bar)) = true.
Proof.
  split; [reflexivity|].
  apply (thin_feature_crops_to_nothing bar 1 0). left. split; [lia|].
  intros x y Hx Hy (p & Hp & Hl).
  change (rows_of bar) with 3 in Hx. change (cols_of bar) with 4 in Hy.
  assert (x = 1 \/ x = 2) as [-> | ->] by lia; [done|].
  assert (y = 1 \/ y = 2 \/ y = 3) as [-> | [-> | ->]] by lia;
    injection Hp as <-; vm_compute in Hl; by destruct Hl.
Defined.

(** Row 0 and column 0 of the gap image are never looked at: two images
    of one size that agree from row 1 and column 1 on get the same box. *)
Theorem scan_skips_first_row_and_column (img1 img2 : image) :
  rows_of img1 = rows_of img2 ->
  cols_of img1 = cols_of img2 ->
  (forall x y, 1 <= x -> 1 <= y -> pixel_at img1 x y = pixel_at img2 x y) ->
  scan img1 = scan img2.
Proof.
  intros Hrows Hcols Hpx. unfold scan. rewrite Hrows, Hcols.
  apply fold_left_ext_in. intros b x Hx%elem_of_range1.
  apply fold_left_ext_in. intros b' y Hy%elem_of_range1.
  unfold scan_pixel. rewrite Hpx by lia. reflexivity.
Qed.

Lemma scan_skips_first_row_and_column_witness :
  scan piece_marked = scan piece.
Proof.
  apply (scan_skips_first_row_and_column piece_marked piece); [reflexivity..|].
  intros x y Hx Hy. unfold pixel_at.
  destruct (Z.to_nat x) as [|[|[|[|n]]]] eqn:Hn; [lia|..]; try reflexivity.
  all: destruct (Z.to_nat y) as [|m] eqn:Hm; [lia|reflexivity].
Defined.

End CaptchaExtras.

(* ===================================================================== *)
(** * More on the batch orchestrator *)
(* ===================================================================== *)

Section OrchestratorMore.
Import Orchestrator.

Lemma in_flight_pos ts :
  (0 < in_flight ts)%nat -> exists i, ts !! i = Some InFlight.
Proof.
  induction ts as [|t ts IH]; [unfold in_flight; simpl; lia|].
  rewrite in_flight_cons. destruct t; unfold holds; simpl.
  - intros (i & Hi)%IH. by exists (S i).
  - intros _. by exists 0%nat.
  - intros (i & Hi)%IH. by exists (S i).
  - intros (i & Hi)%IH. by exists (S i).
Qed.

Lemma unfinished_task ts :
  all_finished ts = false ->
  exists i, ts !! i = Some Pending \/ ts !! i = Some InFlight.
Proof.
  induction ts as [|t ts IH]; [done|]. simpl.
  destruct t; simpl.
  - intros _. exists 0%nat. by left.
  - intros _. exists 0%nat. by right.
  - intros (i & Hi)%IH. by exists (S i).
  - intros (i & Hi)%IH. by exists (S i).
Qed.

End OrchestratorMore.

Section OrchestratorExtras.
Import Orchestrator.

(** The gate does not get stuck.  With at least one permit, in every
    state a run of [batch_get_note_comments] passes through in which some
    task is not done, either a task is inside its block and can leave it,
    or a task is waiting and a permit is left for it: some step changes
    the number of permits. *)
Theorem some_task_can_move (cpu_count : nat) (aweme_list : list string) (s : pool) :
  (0 < cpu_count)%nat ->
  batch_get_note_comments cpu_count aweme_list s ->
  all_finished (tasks s) = false ->
  ((exists i, tasks s !! i = Some InFlight) \/
   ((0 < permits s)%nat /\ exists i, tasks s !! i = Some Pending)) /\
  exists s', step s s' /\ permits s' <> permits s.
Proof.
  intros Hk Hrun Hopen.
  destruct (steps_accounted _ _ Hrun) as [Hacc _].
  rewrite accounted_start in Hacc. unfold accounted in Hacc.
  assert ((exists i, tasks s !! i = Some InFlight) \/
          ((0 < permits s)%nat /\ exists i, tasks s !! i = Some Pending)) as Hmove.
  { destruct (unfinished_task _ Hopen) as (i & [Hi|Hi]); [|left; by exists i].
    destruct (decide (0 < in_flight (tasks s))%nat) as [Hin|Hin].
    - left. by apply in_flight_pos.
    - right. split; [lia | by exists i]. }
  split; [done|]. destruct s as [p ts]. simpl in *.
  destruct Hmove as [(i & Hi)|(Hp & i & Hi)].
  - eexists. split; [by apply (step_return p ts i)|]. simpl. lia.
  - destruct p as [|p]; [lia|].
    eexists. split; [by apply (step_acquire p ts i)|]. simpl. lia.
Qed.

Lemma some_task_can_move_witness :
  exists s', step {| permits := 0; tasks := [InFlight; InFlight; Pending] |} s' /\
             permits s' <> 0%nat.
Proof.
  destruct (some_task_can_move 2 ["a"; "b"; "c"]%string
              {| permits := 0; tasks := [InFlight; InFlight; Pending] |})
    as [_ Hstep].
  - lia.
  - unfold batch_get_note_comments, start. cbn [map].
    eapply rtc_l; [apply (step_acquire 1 [Pending; Pending; Pending] 0); reflexivity|].
    eapply rtc_l; [apply (step_acquire 0 [InFlight; Pending; Pending] 1); reflexivity|].
    apply rtc_refl.
  - reflexivity.
  - exact Hstep.
Defined.

End OrchestratorExtras.

(* ===================================================================== *)
(** * Cookies *)
(* ===================================================================== *)

Section CookieFacts.
Import Stdlib.Strings.Ascii.
Import Cookies.

Lemma py_split_nonempty sep s : py_split sep s <> [].
Proof.
  destruct s as [|a s]; simpl; [done|].
  destruct (Ascii.eqb a sep); [done|]. by destruct (py_split sep s).
Qed.

(** A string without the separator is one piece. *)
Lemma py_split_free sep s : sep_free sep s = true -> py_split sep s = [s].
Proof.
  induction s as [|a s IH]; simpl; [done|].
  intros [Ha Hs]%andb_true_iff. apply negb_true_iff in Ha. rewrite Ha, IH; done.
Qed.

(** The first separator ends the first piece. *)
Lemma py_split_app sep a b :
  sep_free sep a = true ->
  py_split sep (a +:+ String sep b) = a :: py_split sep b.
Proof.
  induction a as [|x a IH].
  - intros _. change (EmptyString +:+ String sep b) with (String sep b).
    simpl. by rewrite Ascii.eqb_refl.
  - simpl. intros [Hx Ha]%andb_true_iff. apply negb_true_iff in Hx.
    change (String x a +:+ String sep b) with (String x (a +:+ String sep b)).
    simpl. by rewrite Hx, IH.
Qed.

(** No piece holds the separator. *)
Lemma py_split_pieces_free sep s :
  Forall (fun piece => sep_free sep piece = true) (py_split sep s).
Proof.
  induction s as [|a s IH]; simpl; [by repeat constructor|].
  destruct (Ascii.eqb a sep) eqn:Ha; [by constructor|].
  destruct (py_split sep s) as [|piece pieces]; [by repeat constructor; simpl; rewrite Ha|].
  apply Forall_cons in IH as [Hp Hps]. constructor; [|done]. simpl. by rewrite Ha.
Qed.

(** Joining the pieces with the separator gives the string back. *)
Lemma join_py_split sep s : Signing.join (sep_str sep) (py_split sep s) = s.
Proof.
  induction s as [|a s IH]; simpl; [done|].
  destruct (Ascii.eqb_spec a sep) as [->|Hne].
  - pose proof (py_split_nonempty sep s) as Hs.
    destruct (py_split sep s) as [|piece pieces] eqn:Hsplit; [done|].
    change (Signing.join (sep_str sep) (EmptyString :: piece :: pieces))
      with (String sep (Signing.join (sep_str sep) (piece :: pieces))).
    by rewrite IH.
  - destruct (py_split sep s) as [|piece pieces] eqn:Hsplit.
    + by destruct (py_split_nonempty sep s).
    + rewrite <- IH. by destruct pieces.
Qed.

Lemma sep_free_app sep a b :
  sep_free sep (a +:+ b) = sep_free sep a && sep_free sep b.
Proof.
  induction a as [|x a IH]; [done|].
  change (String x a +:+ b) with (String x (a +:+ b)). simpl.
  by rewrite IH, andb_assoc.
Qed.

(** Two pieces: the string is the two with one separator between. *)
Lemma py_split_two sep s k v :
  py_split sep s = [k; v] ->
  s = k +:+ String sep v /\ sep_free sep k = true /\ sep_free sep v = true.
Proof.
  intros Hs. pose proof (join_py_split sep s) as Hj.
  pose proof (py_split_pieces_free sep s) as Hf. rewrite Hs in Hj, Hf.
  apply Forall_cons in Hf as [Hk Hv]. apply Forall_cons in Hv as [Hv _].
  split_and!; [|done..]. by rewrite <- Hj.
Qed.

Lemma split_join_free sep l :
  l <> [] -> Forall (fun x => sep_free sep x = true) l ->
  py_split sep (Signing.join (sep_str sep) l) = l.
Proof.
  induction l as [|x l IH]; [done|]. intros _ [Hx Hl]%Forall_cons.
  destruct l as [|y l]; [by apply py_split_free|].
  change (Signing.join (sep_str sep) (x :: y :: l))
    with (x +:+ String sep (Signing.join (sep_str sep) (y :: l))).
  rewrite py_split_app by done. by rewrite IH.
Qed.

Lemma convert_str_cookie_to_dict_fold s :
  convert_str_cookie_to_dict s = fold_left add_cookie (py_split ";" s) ∅.
Proof. by destruct s. Qed.

Lemma cookie_pair_split c :
  sep_free "=" (cookie_name c) = true -> sep_free "=" (cookie_value c) = true ->
  py_split "=" (cookie_pair c) = [cookie_name c; cookie_value c].
Proof.
  intros Hn Hv. unfold cookie_pair.
  change (cookie_name c +:+ "=" +:+ cookie_value c)
    with (cookie_name c +:+ String "=" (cookie_value c)).
  by rewrite py_split_app, py_split_free.
Qed.

Lemma cookie_pair_not_empty c : cookie_pair c <> EmptyString.
Proof. unfold cookie_pair. by destruct (cookie_name c). Qed.

(** A plain cookie's pair is read back as the cookie. *)
Lemma add_cookie_plain d c :
  plain c -> add_cookie d (cookie_pair c) = <[cookie_name c := cookie_value c]> d.
Proof.
  intros (_ & _ & Hn & Hv & Hstrip). unfold add_cookie. rewrite Hstrip.
  pose proof (cookie_pair_not_empty c) as Hne.
  destruct (cookie_pair c) as [|a pair] eqn:Hpair; [done|].
  rewrite <- Hpair. by rewrite cookie_pair_split.
Qed.

Lemma insert_cookies_snoc cs c (d : gmap string string) :
  fold_left (fun (d : gmap string string) c => <[cookie_name c := cookie_value c]> d) (cs ++ [c]) d
  = <[cookie_name c := cookie_value c]>
      (fold_left (fun (d : gmap string string) c => <[cookie_name c := cookie_value c]> d) cs d).
Proof. by rewrite fold_left_app. Qed.

Lemma named_snoc n cs c :
  named n (cs ++ [c]) =
  named n cs ++ (if String.eqb (cookie_name c) n then [c] else []).
Proof. unfold named. by rewrite List.filter_app. Qed.

(** The dict maps a name to the value of the last cookie of that name. *)
Lemma cookie_dict_lookup cs n :
  fold_left (fun (d : gmap string string) c => <[cookie_name c := cookie_value c]> d) cs ∅ !! n
  = cookie_value <$> last (named n cs).
Proof.
  induction cs as [|c cs IH] using rev_ind; [done|].
  rewrite insert_cookies_snoc, named_snoc.
  destruct (String.eqb_spec (cookie_name c) n) as [<-|Hne].
  - by rewrite lookup_insert_eq, last_snoc.
  - by rewrite lookup_insert_ne, app_nil_r.
Qed.

Lemma convert_cookies_some cs :
  convert_cookies (Some cs)
  = (Signing.join ";" (map cookie_pair cs),
     fold_left (fun (d : gmap string string) c => <[cookie_name c := cookie_value c]> d)
               cs ∅).
Proof. by destruct cs. Qed.

End CookieFacts.

Section CookieExtras.
Import Stdlib.Strings.Ascii.
Import Cookies.

(** [convert_cookies] returns an empty string and an empty dict for no
    cookies.  Otherwise the dict maps each name to the value of the last
    cookie of that name, and to nothing when no cookie has the name, while
    the header string keeps every cookie, repeated names included, in the
    browser's order. *)
Theorem convert_cookies_keeps_last :
  convert_cookies None = (EmptyString, ∅) /\
  convert_cookies (Some []) = (EmptyString, ∅) /\
  forall cs : list cookie,
    (forall n, (convert_cookies (Some cs)).2 !! n = cookie_value <$> last (named n cs)) /\
    (cs <> [] ->
     Forall (fun c => sep_free ";" (cookie_pair c) = true) cs ->
     py_split ";" (convert_cookies (Some cs)).1 = map cookie_pair cs).
Proof.
  split_and!; [done | done |]. intros cs. split.
  - intros n. destruct cs as [|c cs]; [done|]. apply cookie_dict_lookup.
  - intros Hne Hfree. destruct cs as [|c cs]; [done|]. cbn [convert_cookies fst].
    apply (split_join_free ";"); [done|]. by apply Forall_fmap.
Qed.

Lemma convert_cookies_keeps_last_witness :
  (convert_cookies (Some sample_cookies)).2 !! "LOGIN_STATUS"%string = Some "1"%string /\
  py_split ";" (convert_cookies (Some sample_cookies)).1
    = ["ttwid=1%7Cabc"; "LOGIN_STATUS=0"; "LOGIN_STATUS=1"]%string.
Proof.
  destruct convert_cookies_keeps_last as (_ & _ & H).
  destruct (H sample_cookies) as [Hdict Hstr]. split.
  - rewrite Hdict. reflexivity.
  - rewrite Hstr; [reflexivity | done | by repeat constructor].
Defined.

(** [pong] answers true exactly when the browser has a cookie named
    [LOGIN_STATUS] and the last one of that name has the value ["1"]; with
    no cookies it answers false. *)
Theorem pong_reads_last_login_status (cookies : option (list cookie)) :
  pong cookies = true <->
  exists cs c, cookies = Some cs /\
               last (named "LOGIN_STATUS" cs) = Some c /\ cookie_value c = "1"%string.
Proof.
  unfold pong. rewrite bool_decide_eq_true. destruct cookies as [cs|].
  - assert ((convert_cookies (Some cs)).2 !! "LOGIN_STATUS"%string
            = cookie_value <$> last (named "LOGIN_STATUS" cs)) as ->.
    { destruct cs as [|c cs]; [done|]. apply cookie_dict_lookup. }
    split.
    + destruct (last (named "LOGIN_STATUS" cs)) as [c|] eqn:Hlast; [|done].
      simpl. intros [= Hv]. exists cs, c. by split_and!.
    + intros (cs' & c & [= <-] & -> & Hv). simpl. by rewrite Hv.
  - split; [done|]. by intros (cs & c & [=] & _).
Qed.

Lemma pong_reads_last_login_status_witness :
  pong (Some sample_cookies) = true /\ pong None = false.
Proof.
  split; [|reflexivity].
  apply (pong_reads_last_login_status (Some sample_cookies)).
  exists sample_cookies, {| cookie_name := "LOGIN_STATUS"; cookie_value := "1" |}.
  by split_and!.
Defined.

(** The header string and the dict agree.  For cookies whose names and
    values hold no [;] and no [=] and whose pair [strip] leaves alone,
    reading the string of [convert_cookies] with
    [convert_str_cookie_to_dict] gives the dict of [convert_cookies]; so
    the [Cookie] header that [update_cookies] installs reads back as the
    [cookie_dict] it stores. *)
Theorem cookie_header_round_trip (self : client_state) (cs : list cookie) :
  Forall plain cs ->
  convert_str_cookie_to_dict (convert_cookies (Some cs)).1 = (convert_cookies (Some cs)).2 /\
  cl_headers (update_cookies self (Some cs)) !! "Cookie"%string
    = Some (convert_cookies (Some cs)).1 /\
  cl_cookie_dict (update_cookies self (Some cs))
    = convert_str_cookie_to_dict (convert_cookies (Some cs)).1.
Proof.
  intros Hplain.
  assert (convert_str_cookie_to_dict (convert_cookies (Some cs)).1
          = (convert_cookies (Some cs)).2) as Hrt.
  { destruct (decide (cs = [])) as [->|Hne]; [done|].
    rewrite convert_cookies_some. cbn [fst snd].
    rewrite convert_str_cookie_to_dict_fold.
    assert (py_split ";" (Signing.join ";" (map cookie_pair cs)) = map cookie_pair cs)
      as ->.
    { apply (split_join_free ";"); [by destruct cs|].
      apply Forall_fmap. eapply Forall_impl; [exact Hplain|].
      intros c (Hn & Hv & _). unfold cookie_pair. simpl.
      by rewrite !sep_free_app, Hn, Hv. }
    generalize (∅ : gmap string string). clear Hne.
    induction Hplain as [|c cs Hc _ IH]; intros d; [done|].
    cbn [map fold_left]. by rewrite add_cookie_plain, IH. }
  unfold update_cookies. destruct (convert_cookies (Some cs)) as [str d] eqn:Hcc.
  cbn [fst snd] in *. split_and!; [done | apply lookup_insert_eq | done].
Qed.

Lemma cookie_header_round_trip_witness :
  convert_str_cookie_to_dict "ttwid=1%7Cabc;LOGIN_STATUS=0;LOGIN_STATUS=1"
  = (convert_cookies (Some sample_cookies)).2.
Proof.
  destruct (cookie_header_round_trip {| cl_headers := ∅; cl_cookie_dict := ∅ |}
              sample_cookies) as [Hrt _].
  - repeat constructor.
  - exact Hrt.
Defined.

(** [convert_str_cookie_to_dict] takes an entry only from a segment that,
    stripped, is a name and a value with exactly one [=] between them: a
    segment without [=], or with two, as a value holding [=] has, adds
    nothing. *)
Theorem cookie_string_entries_sound (cookie_str k v : string) :
  convert_str_cookie_to_dict cookie_str !! k = Some v ->
  exists segment,
    segment ∈ py_split ";" cookie_str /\
    py_strip segment = k +:+ "=" +:+ v /\
    sep_free "=" k = true /\ sep_free "=" v = true.
Proof.
  rewrite convert_str_cookie_to_dict_fold.
  generalize (py_split ";" cookie_str). intros segments. revert k v.
  apply (fold_left_inv
           (fun d : gmap string string =>
              forall k v, d !! k = Some v ->
                exists segment, segment ∈ segments /\
                  py_strip segment = k +:+ "=" +:+ v /\
                  sep_free "=" k = true /\ sep_free "=" v = true)).
  - intros k v. by rewrite lookup_empty.
  - intros d segment Hin Hd k v. unfold add_cookie.
    destruct (py_strip segment) as [|a stripped] eqn:Hstrip; [apply Hd|].
    destruct (py_split "=" (String a stripped)) as [|k' [|v' [|? ?]]] eqn:Hsplit;
      try apply Hd.
    destruct (decide (k' = k)) as [->|Hne].
    + rewrite lookup_insert_eq. intros [= ->].
      apply py_split_two in Hsplit as (Heq & Hk & Hv).
      exists segment. split_and!; [done | | done | done].
      by rewrite Hstrip, Heq.
    + rewrite lookup_insert_ne by done. apply Hd.
Qed.

Lemma cookie_string_entries_sound_witness :
  convert_str_cookie_to_dict "a=1; token=abc==; b=2" !! "token"%string = None /\
  exists segment, segment ∈ py_split ";" "a=1; token=abc==; b=2" /\
                  py_strip segment = "b=2"%string.
Proof.
  split; [reflexivity|].
  destruct (cookie_string_entries_sound "a=1; token=abc==; b=2" "b" "2")
    as (segment & Hin & Hstrip & _); [reflexivity|].
  by exists segment.
Defined.

End CookieExtras.

(* ===================================================================== *)
(** * The requests *)
(* ===================================================================== *)

Section HttpExtras.
Import Signing Http.

Variable J : Type.
Variable json_get : J -> string -> option J.
Variable json_empty : J.
Variable request : http_request -> result J.
Variable js_sign : string -> string -> option string.
Variable self_headers : gmap string string.
Variable local_storage douyin_js : result unit.

(** [get] when the storage read or the compilation raises on a non-empty
    dict: nothing is signed or sent, the dict is untouched. *)
Lemma get_unready uri p headers e :
  p <> [] ->
  (local_storage ≫= fun _ => douyin_js) = raise e ->
  get J request js_sign self_headers local_storage douyin_js uri (Some p) headers
  = {| sent := []; signed := []; answer := raise e; params_now := Some p |}.
Proof.
  intros Hp He. unfold get, process_req_params. destruct p as [|kv p]; [done|].
  destruct local_storage as [e1|[]]; [by injection He as <-|].
  destruct douyin_js as [e2|[]]; [by injection He as <-|]. done.
Qed.

(** The request of one comment page.  With a User-Agent among the
    client's headers and an evaluator that answers, [get_aweme_comments]
    sends one GET to the comment list once the storage is read and the
    script compiled: its parameters are [aweme_id], the cursor in decimal,
    [count] 20 and [item_type] 0, then the constants, then [X-Bogus], in
    that order; the signature is the evaluator's answer to exactly those
    entries without the last; and the headers are the client's own, so the
    [Referer] built from the search keyword is not sent.  When the read
    or the compilation raises, nothing is signed or sent and the exception
    is the outcome. *)
Theorem get_aweme_comments_request
    (quote : string -> string -> string) (request_keyword aweme_id : string)
    (cursor : Z) (ua sig : string) :
  self_headers !! user_agent_key = Some ua ->
  let params := [ ("aweme_id", aweme_id); ("cursor", pretty cursor);
                  ("count", "20"); ("item_type", "0") ]%string in
  js_sign (query_of (params ++ common_params)) ua = Some sig ->
  let ex := get_aweme_comments J request js_sign self_headers local_storage douyin_js
              quote request_keyword aweme_id cursor in
  let rq := {| req_method := "GET";
               req_url := "https://www.douyin.com/aweme/v1/web/comment/list/";
               req_params := Some (params ++ common_params ++ [(x_bogus_key, sig)]);
               req_data := None;
               req_headers := self_headers |} in
  (local_storage = ok tt -> douyin_js = ok tt ->
   sent ex = [rq] /\
   signed ex = [(query_of (params ++ common_params), ua)] /\
   answer ex = request rq /\
   req_headers rq !! "Referer"%string = self_headers !! "Referer"%string) /\
  (forall e, (local_storage ≫= fun _ => douyin_js) = raise e ->
   sent ex = [] /\ signed ex = [] /\ answer ex = raise e).
Proof.
  intros Hua params Hsig ex rq. split.
  - intros Hl Hd.
    assert (process_req_params js_sign self_headers local_storage douyin_js
              (Some params) None
            = {| params_after := Some (params ++ common_params ++ [(x_bogus_key, sig)]);
                 sign_calls := [(query_of (params ++ common_params), ua)];
                 raised := None |}) as Hp.
    { rewrite Hl, Hd.
      rewrite (process_req_params_signed js_sign self_headers params None ua sig);
        [reflexivity | done | done | exact Hsig]. }
    subst ex. unfold get_aweme_comments, get. cbv zeta.
    change (process_req_params js_sign self_headers local_storage douyin_js (Some _) None)
      with (process_req_params js_sign self_headers local_storage douyin_js
              (Some params) None).
    rewrite Hp. cbn [raised sign_calls params_after headers_or]. by split_and!.
  - intros e He. subst ex. unfold get_aweme_comments. cbv zeta.
    by rewrite (get_unready _ _ _ e) by done.
Qed.

(** [get_video_by_id] works on a copy of the headers without [Origin].
    When the client's headers have no [Origin] it raises a [KeyError]
    before anything is signed or sent.  Otherwise, with a User-Agent and an
    evaluator that answers, once the storage is read and the script
    compiled, it sends one GET to the detail endpoint with the headers
    minus [Origin] and the signed [aweme_id], and returns the response's
    [aweme_detail], or the empty object when there is none; when the read
    or the compilation raises, nothing is signed or sent and the exception
    is the outcome. *)
Theorem get_video_by_id_drops_origin (aweme_id : string) :
  let ex := get_video_by_id J json_get json_empty request js_sign self_headers
              local_storage douyin_js aweme_id in
  (self_headers !! "Origin"%string = None ->
   sent ex = [] /\ signed ex = [] /\ answer ex = raise (KeyError "Origin")) /\
  (forall origin ua sig,
     self_headers !! "Origin"%string = Some origin ->
     self_headers !! user_agent_key = Some ua ->
     js_sign (query_of (("aweme_id"%string, aweme_id) :: common_params)) ua = Some sig ->
     let rq := {| req_method := "GET";
                  req_url := "https://www.douyin.com/aweme/v1/web/aweme/detail/";
                  req_params := Some (("aweme_id"%string, aweme_id)
                                        :: common_params ++ [(x_bogus_key, sig)]);
                  req_data := None;
                  req_headers := delete "Origin"%string self_headers |} in
     (local_storage = ok tt -> douyin_js = ok tt ->
      sent ex = [rq] /\
      req_headers rq !! "Origin"%string = None /\
      signed ex = [(query_of (("aweme_id"%string, aweme_id) :: common_params), ua)] /\
      answer ex = (res ← request rq;
                   mret (default json_empty (json_get res "aweme_detail")))) /\
     (forall e, (local_storage ≫= fun _ => douyin_js) = raise e ->
      sent ex = [] /\ signed ex = [] /\ answer ex = raise e)).
Proof.
  cbn zeta. unfold get_video_by_id. split.
  - intros ->. done.
  - intros origin ua sig -> Hua Hsig. cbn [sent signed answer]. split.
    + intros -> ->. unfold get.
      assert (headers_or self_headers (Some (delete "Origin"%string self_headers))
              = delete "Origin"%string self_headers) as Hh.
      { unfold headers_or. rewrite decide_False; [done|].
        intros Hempty.
        assert (delete "Origin"%string self_headers !! user_agent_key = Some ua) as Hl
          by by rewrite lookup_delete_ne.
        by rewrite Hempty, lookup_empty in Hl. }
      rewrite (process_req_params_signed js_sign self_headers
                 [("aweme_id"%string, aweme_id)] _ ua sig);
        [|done| |exact Hsig].
      * cbn [raised sign_calls params_after]. rewrite Hh.
        split_and!; [done | apply lookup_delete_eq | done | done].
      * rewrite Hh. by rewrite lookup_delete_ne.
    + intros e He. by rewrite (get_unready _ _ _ e) by done.
Qed.

(** [get] signs before it sends.  A request without parameters goes out
    unsigned: for no dict or an empty one [get] calls no evaluator and
    sends the parameters as given, whatever the page and the script are.
    On a non-empty dict, when the signing raises nothing is sent and the
    exception is the answer: with the dict untouched when the storage read
    or the compilation raised, with the constants merged in when the
    User-Agent is missing or the evaluator failed.  Otherwise one request
    is sent, with the signed dict. *)
Theorem get_signs_or_sends_nothing (uri : string) (headers : option (gmap string string)) :
  let get := get J request js_sign self_headers local_storage douyin_js uri in
  let unsigned params :=
    {| req_method := "GET"; req_url := base_url +:+ uri; req_params := params;
       req_data := None; req_headers := headers_or self_headers headers |} in
  (sent (get None headers) = [unsigned None] /\ signed (get None headers) = []) /\
  (sent (get (Some []) headers) = [unsigned (Some [])] /\
   signed (get (Some []) headers) = []) /\
  (forall p, p <> [] ->
     let ex := get (Some p) headers in
     let merged := dict_update p common_params in
     (forall e, (local_storage ≫= fun _ => douyin_js) = raise e ->
        ex = {| sent := []; signed := []; answer := raise e; params_now := Some p |}) /\
     (local_storage = ok tt -> douyin_js = ok tt ->
      headers_or self_headers headers !! user_agent_key = None ->
        ex = {| sent := []; signed := []; answer := raise (KeyError user_agent_key);
                params_now := Some merged |}) /\
     (forall ua, local_storage = ok tt -> douyin_js = ok tt ->
      headers_or self_headers headers !! user_agent_key = Some ua ->
        match js_sign (query_of merged) ua with
        | None =>
            ex = {| sent := []; signed := [(query_of merged, ua)];
                    answer := raise (JsError "sign"); params_now := Some merged |}
        | Some sig =>
            let signed_params := Some (dict_set x_bogus_key sig merged) in
            ex = {| sent := [unsigned signed_params];
                    signed := [(query_of merged, ua)];
                    answer := request (unsigned signed_params);
                    params_now := signed_params |}
        end)).
Proof.
  cbn zeta. split_and!; try done.
  intros p Hp. split_and!.
  - intros e He. by apply get_unready.
  - intros -> -> Hua. unfold get, process_req_params.
    destruct p as [|kv p]; [done|]. by rewrite Hua.
  - intros ua -> -> Hua. unfold get.
    rewrite (process_req_params_called js_sign self_headers p headers ua Hp Hua).
    cbv zeta. by destruct (js_sign (query_of (dict_update p common_params)) ua).
Qed.

End HttpExtras.

Section HttpWitnesses.
Import Signing Http.

Lemma get_aweme_comments_request_witness :
  exists rq,
    sent (get_aweme_comments unit no_answer echo_sign sample_client_headers ready ready
            (fun s _ => s) "cats" "7306880126984211724" 20) = [rq] /\
    req_headers rq !! "Referer"%string = Some "https://www.douyin.com/"%string.
Proof.
  destruct (get_aweme_comments_request unit no_answer echo_sign sample_client_headers
              ready ready
              (fun s _ => s) "cats" "7306880126984211724" 20 "Mozilla/5.0"
              (query_of ([ ("aweme_id", "7306880126984211724"); ("cursor", "20");
                           ("count", "20"); ("item_type", "0") ]%string
                         ++ common_params)))
    as [Hready _]; [reflexivity | reflexivity |].
  destruct (Hready eq_refl eq_refl) as (Hsent & _ & _ & Href).
  eexists. split; [exact Hsent|]. rewrite Href. reflexivity.
Defined.

Lemma get_video_by_id_drops_origin_witness :
  exists rq,
    sent (get_video_by_id unit (fun _ _ => None) tt no_answer echo_sign
            sample_client_headers ready ready "7306880126984211724") = [rq] /\
    req_headers rq !! "Origin"%string = None.
Proof.
  destruct (get_video_by_id_drops_origin unit (fun _ _ => None) tt no_answer echo_sign
              sample_client_headers ready ready "7306880126984211724") as [_ Hok].
  destruct (Hok "https://www.douyin.com/"%string "Mozilla/5.0"%string
              (query_of (("aweme_id"%string, "7306880126984211724"%string)
                           :: common_params)))
    as [Hready _]; [reflexivity..|].
  destruct (Hready eq_refl eq_refl) as (Hsent & Horigin & _).
  eexists. split; [exact Hsent | exact Horigin].
Defined.

Lemma get_signs_or_sends_nothing_witness :
  sent (get unit no_answer echo_sign ∅ ready (raise (JsError "compile")) "/x"
          (Some sample_params) None) = [] /\
  params_now (get unit no_answer echo_sign ∅ ready (raise (JsError "compile")) "/x"
                (Some sample_params) None) = Some sample_params /\
  sent (get unit no_answer echo_sign ∅ ready ready "/x" (Some sample_params) None) = [] /\
  params_now (get unit no_answer echo_sign ∅ ready ready "/x" (Some sample_params) None)
    = Some (dict_update sample_params common_params).
Proof.
  destruct (get_signs_or_sends_nothing unit no_answer echo_sign ∅ ready
              (raise (JsError "compile")) "/x" None) as (_ & _ & Hfail).
  destruct (Hfail sample_params) as (Hunready & _ & _); [done|].
  rewrite (Hunready (JsError "compile") eq_refl).
  destruct (get_signs_or_sends_nothing unit no_answer echo_sign ∅ ready ready "/x" None)
    as (_ & _ & Hfail').
  destruct (Hfail' sample_params) as (_ & Hagent & _); [done|].
  rewrite (Hagent eq_refl eq_refl eq_refl). by split_and!.
Defined.

End HttpWitnesses.

(* ===================================================================== *)
(** * The crawler *)
(* ===================================================================== *)

Section CrawlFacts.
Import Crawl.

Lemma collect_ids_acc posts acc :
  collect_ids posts acc =
  match collect_ids posts [] with
  | inl e => inl e
  | inr ids => inr (acc ++ ids)
  end.
Proof.
  revert acc. induction posts as [|post posts IH]; intros acc; simpl.
  - by rewrite app_nil_r.
  - destruct (choose_aweme_info post) as [e|[info|]]; [done| |apply IH].
    rewrite IH. rewrite (IH [_]).
    destruct (collect_ids posts []) as [e|ids]; [done|]. by rewrite <- app_assoc.
Qed.

Lemma page_offsets_S p n : page_offsets p (S n) = p * dy_limit_count :: page_offsets (p + 1) n.
Proof.
  unfold page_offsets. rewrite Nat2Z.inj_succ, seqZ_cons by lia. simpl.
  do 3 f_equal. lia.
Qed.

Lemma offsets_of_search keyword o evs :
  offsets_of (ESearch keyword o :: evs) = o :: offsets_of evs.
Proof. reflexivity. Qed.

(** The calls of a paging loop are at consecutive pages, and none goes
    beyond the limit. *)
Lemma search_pages_offsets max_note_count keyword script p acc :
  let evs := (search_pages max_note_count keyword script p acc).1 in
  offsets_of evs = page_offsets p (length (offsets_of evs)) /\
  (offsets_of evs <> [] ->
   (p + Z.of_nat (length (offsets_of evs))) * dy_limit_count <= max_note_count).
Proof.
  revert p acc. induction script as [|rp script IH]; intros p acc; cbn zeta.
  - simpl. by destruct (_ <=? _).
  - cbn [search_pages].
    destruct ((p + 1) * dy_limit_count <=? max_note_count) eqn:Hc; [|done].
    apply Z.leb_le in Hc.
    assert (forall evs,
              offsets_of evs = [] ->
              offsets_of (ESearch keyword (p * dy_limit_count) :: evs)
                = page_offsets p (length (offsets_of
                                            (ESearch keyword (p * dy_limit_count) :: evs))) /\
              (offsets_of (ESearch keyword (p * dy_limit_count) :: evs) <> [] ->
               (p + Z.of_nat (length (offsets_of
                                        (ESearch keyword (p * dy_limit_count) :: evs))))
                 * dy_limit_count <= max_note_count)) as Hone.
    { intros evs Hevs. rewrite offsets_of_search, Hevs. cbn [length].
      rewrite page_offsets_S. split; [done|]. intros _. lia. }
    destruct rp as [[[posts|]]|msg]; cbn [data fst].
    + destruct (collect_ids posts acc) as [e|acc']; [by apply Hone|].
      specialize (IH (p + 1) acc').
      destruct (search_pages max_note_count keyword script (p + 1) acc') as [evs out].
      cbn [fst] in *. destruct IH as [IH1 IH2].
      rewrite offsets_of_search. cbn [length]. rewrite page_offsets_S.
      split; [by rewrite <- IH1|]. intros _.
      destruct (offsets_of evs) as [|o os] eqn:Hos; [simpl; lia|].
      specialize (IH2 ltac:(done)). lia.
    + by apply Hone.
    + by apply Hone.
Qed.

(** Pages that all give their ids are walked through in one go. *)
Lemma search_pages_good max_note_count keyword pages idss tail p acc :
  Forall2 (fun rp ids => page_ids rp = Some ids) pages idss ->
  (p + Z.of_nat (length pages)) * dy_limit_count <= max_note_count ->
  0 <= p ->
  search_pages max_note_count keyword (pages ++ tail) p acc =
  (map (ESearch keyword) (page_offsets p (length pages))
     ++ (search_pages max_note_count keyword tail
           (p + Z.of_nat (length pages)) (acc ++ concat idss)).1,
   (search_pages max_note_count keyword tail
      (p + Z.of_nat (length pages)) (acc ++ concat idss)).2).
Proof.
  intros Hpages. revert p acc.
  induction Hpages as [|rp ids pages idss Hrp _ IH]; intros p acc Hmax Hp.
  - simpl. rewrite Z.add_0_r, app_nil_r. by destruct (search_pages _ _ _ _ _).
  - cbn [app length concat]. cbn [search_pages].
    assert (((p + 1) * dy_limit_count <=? max_note_count) = true) as ->.
    { apply Z.leb_le. unfold dy_limit_count in *. cbn [length] in Hmax. lia. }
    unfold page_ids in Hrp. destruct rp as [[[posts|]]|msg]; [|done..].
    cbn [data]. rewrite collect_ids_acc.
    destruct (collect_ids posts []) as [e|ids']; [done|]. injection Hrp as ->.
    rewrite IH; [|cbn [length] in Hmax; lia|lia].
    rewrite page_offsets_S. cbn [map app fst snd].
    replace (p + 1 + Z.of_nat (length pages)) with (p + Z.of_nat (S (length pages)))
      by lia.
    by rewrite <- app_assoc.
Qed.

End CrawlFacts.

Section CrawlExtras.
Import Crawl.

(** What [__init__] makes of its keyword arguments, whatever they are.
    [headless] is [True] and [save_login_state] is true, also when [False]
    was passed, so [launch_browser] always starts the persistent context
    and never the other branch.  [max_comments] is never [None]: it is 0,
    no quota, when the argument is missing or falsy; [max_note_count] is 32
    when the argument is missing or 0. *)
Theorem crawler_init_defaults (kwargs : gmap string pyval) :
  headless (init kwargs) = PBool true /\
  truthy (save_login_state (init kwargs)) = true /\
  (forall user_data_dir,
     launch_browser (init kwargs) user_data_dir
       = LaunchPersistentContext user_data_dir (PBool true)) /\
  max_comments (init kwargs) <> PNone /\
  (truthy (kwargs_get kwargs "max_comments") = false ->
   max_comments (init kwargs) = PInt 0) /\
  (truthy (kwargs_get kwargs "max_note_count") = false ->
   max_note_count (init kwargs) = PInt 32).
Proof.
  assert (headless (init kwargs) = PBool true) as Hh.
  { unfold init, py_or. cbn [headless].
    by destruct (truthy (kwargs_get kwargs "headless")). }
  assert (truthy (save_login_state (init kwargs)) = true) as Hs.
  { unfold init, py_or. cbn [save_login_state].
    by destruct (truthy (kwargs_get kwargs "save_login_state")) eqn:Ht. }
  split_and!; [done | done | | | |].
  - intros dir. unfold launch_browser. by rewrite Hs, Hh.
  - unfold init, py_or. cbn [max_comments].
    destruct (truthy (kwargs_get kwargs "max_comments")) eqn:Ht; [|done].
    intros Hn. by rewrite Hn in Ht.
  - unfold init, py_or. cbn [max_comments]. by intros ->.
  - unfold init, py_or. cbn [max_note_count]. by intros ->.
Qed.

Lemma crawler_init_defaults_witness :
  headless (init {[ "headless"%string := PBool false ]}) = PBool true /\
  max_comments (init {[ "headless"%string := PBool false ]}) = PInt 0.
Proof.
  destruct (crawler_init_defaults {[ "headless"%string := PBool false ]})
    as (Hh & _ & _ & _ & Hm & _).
  split; [exact Hh | by apply Hm].
Defined.

(** The search never asks beyond [max_note_count]: whatever the calls
    return, they are made at offsets 0, 10, 20, ... with no gap, and the
    number of calls times 10 stays within [max_note_count]; with the
    default of 32 that is at most three calls, 30 notes. *)
Theorem search_stays_within_limit
    (max_note_count : Z) (keyword : string) (script : list search_reply) :
  let evs := (search_pages max_note_count keyword script 0 []).1 in
  offsets_of evs = page_offsets 0 (length (offsets_of evs)) /\
  Z.of_nat (length (offsets_of evs)) * 10 <= Z.max 0 max_note_count.
Proof.
  destruct (search_pages_offsets max_note_count keyword script 0 []) as [H1 H2].
  cbn zeta in *. split; [done|].
  destruct (offsets_of (search_pages max_note_count keyword script 0 []).1) as [|o os];
    [simpl; lia|].
  specialize (H2 ltac:(done)). unfold dy_limit_count in H2. lia.
Qed.

(** How the paging of one keyword ends.  Over pages that all give their
    ids: when there are [max_note_count // 10] of them, they are all
    fetched, no further call is made, and the ids of all of them, in order,
    are handed on; when a call raises before that, one error is logged,
    paging stops, and the ids of the pages before it are still handed on. *)
Theorem search_collects_pages
    (max_note_count : Z) (keyword : string) (pages : list search_reply)
    (idss : list (list string)) (rest : list search_reply) (msg : string) :
  Forall2 (fun rp ids => page_ids rp = Some ids) pages idss ->
  (Z.of_nat (length pages) = max_note_count / 10 ->
   search_pages max_note_count keyword (pages ++ rest) 0 []
   = (map (ESearch keyword) (page_offsets 0 (length pages)), Collected (concat idss))) /\
  (Z.of_nat (length pages) < max_note_count / 10 ->
   search_pages max_note_count keyword (pages ++ SearchRaises msg :: rest) 0 []
   = (map (ESearch keyword) (page_offsets 0 (length pages))
        ++ [ESearch keyword (Z.of_nat (length pages) * 10); ELogError keyword msg],
      Collected (concat idss))).
Proof.
  intros Hpages.
  pose proof (Z.div_mod max_note_count 10 ltac:(lia)) as Hdiv.
  pose proof (Z.mod_pos_bound max_note_count 10 ltac:(lia)) as Hmod.
  split; intros Hlen.
  - rewrite (search_pages_good _ _ _ _ _ _ _ Hpages); [|unfold dy_limit_count; lia|lia].
    assert (search_pages max_note_count keyword rest (0 + Z.of_nat (length pages))
              ([] ++ concat idss) = ([], Collected (concat idss))) as ->.
    { destruct rest; simpl;
        rewrite (proj2 (Z.leb_gt _ _)) by (unfold dy_limit_count; lia); done. }
    by rewrite app_nil_r.
  - rewrite (search_pages_good _ _ _ _ _ _ _ Hpages); [|unfold dy_limit_count; lia|lia].
    cbn [search_pages].
    rewrite (proj2 (Z.leb_le _ _)) by (unfold dy_limit_count; lia). done.
Qed.

Lemma search_collects_pages_witness :
  search_pages 32 "cats"
    ([page_of ["1"; "2"]; page_of ["3"]; page_of ["4"]] ++ [page_of ["never asked for"]])
    0 []
  = ([ESearch "cats" 0; ESearch "cats" 10; ESearch "cats" 20],
     Collected ["1"; "2"; "3"; "4"]%string).
Proof.
  destruct (search_collects_pages 32 "cats"
              [page_of ["1"; "2"]; page_of ["3"]; page_of ["4"]]
              [["1"; "2"]; ["3"]; ["4"]]%string
              [page_of ["never asked for"]] "") as [Hall _].
  - repeat constructor.
  - apply Hall. reflexivity.
Defined.

End CrawlExtras.
